(** * testcli: the assertion and execution engine of [pkg/engine]

    A shallow embedding of [pkg/engine/test.go], [pkg/engine/execution.go]
    and [pkg/engine/teststorage/safemap.go].

    Go strings are byte sequences, and so are the [string]s used here: one
    [ascii] per byte.  A Go [error] value is an [option error], [None]
    being [nil].  Calls that can end a goroutine abnormally return an
    [outcome]. *)

From Stdlib Require Import Ascii String DecimalString Lia.
From stdpp Require Import base option list strings gmap.

(** ** Strings: the functions of package [strings] the engine calls *)

Module strings.

(** [strings.HasPrefix(s, prefix)]. *)
Fixpoint HasPrefix (s prefix : string) {struct prefix} : bool :=
  match prefix with
  | EmptyString => true
  | String p prefix' =>
      match s with
      | EmptyString => false
      | String c s' => if Ascii.eqb c p then HasPrefix s' prefix' else false
      end
  end.

(** [strings.CutPrefix(s, prefix)]: the text after the prefix, when [s]
    starts with it. *)
Fixpoint CutPrefix (s prefix : string) {struct prefix} : option string :=
  match prefix with
  | EmptyString => Some s
  | String p prefix' =>
      match s with
      | EmptyString => None
      | String c s' => if Ascii.eqb c p then CutPrefix s' prefix' else None
      end
  end.

(** [strings.Contains(s, substr)]: some suffix of [s] starts with [substr]. *)
Fixpoint Contains (s substr : string) {struct s} : bool :=
  HasPrefix s substr ||
  match s with
  | EmptyString => false
  | String _ s' => Contains s' substr
  end.

(** [strings.Cut(s, sep)] for a non-empty [sep]: the text before and after
    the first occurrence of [sep]. *)
Fixpoint Cut (s sep : string) {struct s} : option (string * string) :=
  if HasPrefix s sep then Some (EmptyString, String.substring (String.length sep) (String.length s) s)
  else match s with
       | EmptyString => None
       | String c s' =>
           match Cut s' sep with
           | Some (before, after) => Some (String c before, after)
           | None => None
           end
       end.

(** [strings.Replace(s, old, new, n)] for a non-empty [old] and [0 <= n]:
    the first [n] non-overlapping occurrences of [old] become [new]. *)
Fixpoint Replace (s old new : string) (n : nat) {struct n} : string :=
  match n with
  | O => s
  | S n' =>
      match Cut s old with
      | Some (before, after) => before +:+ new +:+ Replace after old new n'
      | None => s
      end
  end.

(** [strings.Join(elems, sep)]. *)
Fixpoint Join (elems : list string) (sep : string) : string :=
  match elems with
  | [] => EmptyString
  | [e] => e
  | e :: rest => e +:+ sep +:+ Join rest sep
  end.

End strings.

(** A double quote and a line feed, for the format strings. *)
Definition dquote : string := String (ascii_of_nat 34) EmptyString.
Definition newline : string := String (ascii_of_nat 10) EmptyString.

(** ** Errors *)

(** The error values the engine builds or receives. *)
#[warning="-register-all"]
Inductive error : Type :=
| errorString (msg : string)                 (* fmt.Errorf, errors of os/exec *)
| joinError (errs : list error)              (* errors.Join *)
| PrefixedError (prefix : string) (err : error).

(** [errors.Join(errs...)]: [nil] when there is nothing to join.  The engine
    only appends non-nil errors to the slices it joins. *)
Definition errorsJoin (errs : list error) : option error :=
  match errs with
  | [] => None
  | _ :: _ => Some (joinError errs)
  end.

(** Modelled from the spec: [NewPrefixedError] is declared in a file of the
    package that is not part of the sources at hand ("a
    structured-error-aggregation utility that joins multiple underlying
    errors under a labeled prefix").  It tags a non-nil error with the
    prefix; [TestCallback.Run] passes it a possibly nil join and its caller
    tests the result against [nil], so a nil error stays nil. *)
Definition NewPrefixedError (prefix : string) (err : option error) : option error :=
  PrefixedError prefix <$> err.

(** [err.Error()].  The text of a [PrefixedError] is modelled as the prefix,
    a colon and the wrapped text. *)
Fixpoint Error (e : error) : string :=
  match e with
  | errorString msg => msg
  | joinError errs =>
      strings.Join ((fix texts (l : list error) : list string :=
                       match l with
                       | [] => []
                       | x :: l' => Error x :: texts l'
                       end) errs) newline
  | PrefixedError prefix err => prefix +:+ ": " +:+ Error err
  end.

(** The verb [%v] on an error and on a boolean. *)
Definition fmt_error (err : option error) : string :=
  match err with
  | None => "<nil>"
  | Some e => Error e
  end.

Definition fmt_bool (b : bool) : string := if b then "true" else "false".

(** ** Abnormal termination *)

Inductive outcome (A : Type) : Type :=
| Returned (a : A)      (* the call returns [a] *)
| Panicked              (* a run-time panic unwinds the goroutine *)
| Exited                (* runtime.Goexit, as called by t.FailNow *)
| OutOfFuel             (* the call is still running when the fuel is spent *)
| Blocked.              (* the call waits for an event that never comes *)
Arguments Returned {A} a.
Arguments Panicked {A}.
Arguments Exited {A}.
Arguments OutOfFuel {A}.
Arguments Blocked {A}.

Definition obind {A B} (m : outcome A) (k : A -> outcome B) : outcome B :=
  match m with
  | Returned a => k a
  | Panicked => Panicked
  | Exited => Exited
  | OutOfFuel => OutOfFuel
  | Blocked => Blocked
  end.

Notation "'call!' x ':=' m 'in' k" := (obind m (fun x => k))
  (at level 10, x name, m at level 100, k at level 200).

(** ** The store, [teststorage.SafeMap] *)

Module teststorage.

(** The map guarded by the read-write lock. *)
Record SafeMap : Type := { db : gmap string string }.

Definition NewSafeMap : SafeMap := {| db := ∅ |}.

(** [m.Set(k, v)]. *)
Definition Set_ (k v : string) (m : SafeMap) : SafeMap :=
  {| db := <[k := v]> (db m) |}.

(** [m.Get(k)]: the value and whether it was found, as an option. *)
Definition Get (k : string) (m : SafeMap) : option string := db m !! k.

End teststorage.

(** ** The regular expressions of package [regexp]

    The engine hands its patterns to Go's [regexp] package, taken here as
    an interface.  [Compile] returns a nil [*Regexp] together with its
    error, so a failed compilation is [None]. *)
Class RegexpPkg : Type := {
  Regexp : Type;
  Compile : string -> option Regexp;
  FindStringIndex : Regexp -> string -> option (nat * nat)
}.

(** ** The test description *)

Record Assertion : Type := {
  Output : list string;
  Errors : list string;
  Dynamic : list string;
  Strict : bool;
  Pattern : list string
}.

Record Assertions : Type := {
  WantErr : bool;
  CanError : bool;
  CanErrorWithMessage : list string;
  Must : Assertion;
  Not : Assertion
}.

(** ** The assertions of [test.go] *)

Definition wantedStrictMsg (out want : string) : error :=
  errorString ("strict match got " +:+ dquote +:+ out +:+ dquote +:+ " want " +:+ dquote +:+ want +:+ dquote).

Definition wantedMissMsg (out want : string) : error :=
  errorString ("didn't find " +:+ dquote +:+ want +:+ dquote +:+ " in standard output: " +:+ dquote +:+ out +:+ dquote).

(** The loop of [assertWanted]: one pass over [w.Output]. *)
Definition assertWanted_errs (out : string) (w : Assertion) : list error :=
  foldl (fun errs want =>
           let errs := if Strict w && negb (String.eqb out want)
                       then errs ++ [wantedStrictMsg out want] else errs in
           let errs := if negb (Strict w) && negb (strings.Contains out want)
                       then errs ++ [wantedMissMsg out want] else errs in
           errs)
        [] (Output w).

Definition assertWanted (out : string) (w : Assertion) : option error :=
  let errs := assertWanted_errs out w in
  if 0 <? length errs then NewPrefixedError "must find" (errorsJoin errs) else None.

Definition patternCompileMsg (pattern : string) : error :=
  errorString ("match pattern " +:+ dquote +:+ pattern +:+ dquote +:+ " did not compile").

Definition patternMissMsg (out pattern : string) : error :=
  errorString ("couldn't match pattern " +:+ dquote +:+ pattern +:+ dquote
               +:+ " to standard output: " +:+ dquote +:+ out +:+ dquote).

Definition errorsMissMsg (stderr want : string) : error :=
  errorString ("didn't find " +:+ dquote +:+ want +:+ dquote
               +:+ " in standard error: " +:+ dquote +:+ stderr +:+ dquote).

Definition dynamicMissMsg (out key value : string) : error :=
  errorString ("didn't find dynamic key " +:+ dquote +:+ key +:+ dquote
               +:+ " with value " +:+ dquote +:+ value +:+ dquote
               +:+ " in standard output: " +:+ dquote +:+ out +:+ dquote).

Definition notStrictMsg (out mustNot : string) : error :=
  errorString ("strict match got " +:+ dquote +:+ out +:+ dquote
               +:+ " must not: " +:+ dquote +:+ mustNot +:+ dquote).

Definition notOutputMsg (out mustNot : string) : error :=
  errorString ("found " +:+ dquote +:+ mustNot +:+ dquote
               +:+ " in standard output: " +:+ dquote +:+ out +:+ dquote).

Definition notErrorsMsg (stderr mustNot : string) : error :=
  errorString ("found " +:+ dquote +:+ mustNot +:+ dquote
               +:+ " in standard error:" +:+ dquote +:+ stderr +:+ dquote).

Definition ensureErrMsg (args : string) (err : option error) (wantErr : bool)
    (stderrString : string) : error :=
  errorString ("command: " +:+ dquote +:+ args +:+ dquote +:+ newline
               +:+ "error = " +:+ fmt_error err
               +:+ ", wantErr = " +:+ fmt_bool wantErr
               +:+ ", stderr = " +:+ stderrString).

Section Assertions.

Context `{RegexpPkg}.

(** The loop of [assertPattern].  After a failed compilation the error is
    appended and control falls through to [re.FindStringIndex(out)] with a
    nil [re]: the method reads a field of its receiver, a nil pointer
    dereference. *)
Fixpoint assertPattern_errs (out : string) (patterns : list string)
    (errs : list error) : outcome (list error) :=
  match patterns with
  | [] => Returned errs
  | pattern :: rest =>
      let re := Compile pattern in
      let errs := match re with
                  | None => errs ++ [patternCompileMsg pattern]
                  | Some _ => errs
                  end in
      match re with
      | None => Panicked
      | Some r =>
          let errs := match FindStringIndex r out with
                      | None => errs ++ [patternMissMsg out pattern]
                      | Some _ => errs
                      end in
          assertPattern_errs out rest errs
      end
  end.

Definition assertPattern (out : string) (patterns : list string)
    : outcome (option error) :=
  call! errs := assertPattern_errs out patterns [] in
  if 0 <? length errs
  then Returned (NewPrefixedError "must find pattern" (errorsJoin errs))
  else Returned None.

Definition assertErrors_errs (stderr : string) (errrs : list string) : list error :=
  foldl (fun errs want =>
           if negb (strings.Contains stderr want)
           then errs ++ [errorsMissMsg stderr want] else errs)
        [] errrs.

Definition assertErrors (stderr : string) (errrs : list string) : option error :=
  let errs := assertErrors_errs stderr errrs in
  if 0 <? length errs then NewPrefixedError "must find errors" (errorsJoin errs) else None.

(** The value [assertDynamic] looks for: the stored one, or the key. *)
Definition dynamicValue (key : string) (storage : teststorage.SafeMap) : string :=
  let value := key in
  match teststorage.Get key storage with
  | Some v => v
  | None => value
  end.

Definition assertDynamic_errs (out : string) (dynamic : list string)
    (storage : teststorage.SafeMap) : list error :=
  foldl (fun errs key =>
           let value := dynamicValue key storage in
           if negb (strings.Contains out value)
           then errs ++ [dynamicMissMsg out key value] else errs)
        [] dynamic.

Definition assertDynamic (out : string) (dynamic : list string)
    (storage : teststorage.SafeMap) : option error :=
  let errs := assertDynamic_errs out dynamic storage in
  if 0 <? length errs
  then NewPrefixedError "must find values from dynamic storage" (errorsJoin errs)
  else None.

Definition assertMustNot_errs (out stderr : string) (not : Assertion) : list error :=
  let errs :=
    foldl (fun errs mustNot =>
             let errs := if Strict not && String.eqb out mustNot
                         then errs ++ [notStrictMsg out mustNot] else errs in
             let errs := if negb (Strict not) && strings.Contains out mustNot
                         then errs ++ [notOutputMsg out mustNot] else errs in
             errs)
          [] (Output not) in
  foldl (fun errs mustNot =>
           if strings.Contains stderr mustNot
           then errs ++ [notErrorsMsg stderr mustNot] else errs)
        errs (Errors not).

Definition assertMustNot (out stderr : string) (not : Assertion) : option error :=
  let errs := assertMustNot_errs out stderr not in
  if 0 <? length errs then NewPrefixedError "must not find values" (errorsJoin errs) else None.

(** [errs = append(errs, err)] under [if err != nil]. *)
Definition appendErr (errs : list error) (err : option error) : list error :=
  match err with
  | Some e => errs ++ [e]
  | None => errs
  end.

(** The guard of the first [return] of [Ensure]. *)
Definition unexpectedErr (a : Assertions) (err : option error) : bool :=
  negb (eqb (bool_decide (err ≠ None)) (WantErr a))
  && negb (CanError a)
  && (length (CanErrorWithMessage a) =? 0).

(** The loop over [a.CanErrorWithMessage], which returns at the first
    message found in the standard error. *)
Fixpoint knownFailure (stderrString : string) (messages : list string) : bool :=
  match messages with
  | [] => false
  | knownFailure_ :: rest =>
      if strings.Contains stderrString knownFailure_ then true
      else knownFailure stderrString rest
  end.

(** [a.Ensure(stdout, stderr, err, storage, args)]. *)
Definition Ensure (a : Assertions) (stdout stderr : string) (err : option error)
    (storage : teststorage.SafeMap) (args : string) : outcome (option error) :=
  let stderrString := stderr in
  if unexpectedErr a err
  then Returned (Some (ensureErrMsg args err (WantErr a) stderrString))
  else if knownFailure stderrString (CanErrorWithMessage a)
  then Returned None
  else
    let out := stdout in
    let errs := [] in
    let errs := appendErr errs (assertWanted out (Must a)) in
    call! perr := assertPattern out (Pattern (Must a)) in
    let errs := appendErr errs perr in
    let errs := appendErr errs (assertErrors stderr (Errors (Must a))) in
    let errs := appendErr errs (assertDynamic out (Dynamic (Must a)) storage) in
    let errs := appendErr errs (assertMustNot out stderrString (Not a)) in
    if 0 <? length errs
    then Returned (NewPrefixedError "assertion" (errorsJoin errs))
    else Returned None.

End Assertions.

(** ** [execution.go]: the dynamic arguments *)

Definition missingKeyMsg (key : string) : error :=
  errorString ("failed to obtain value of key " +:+ key).

(** The loop of [parseDynamicArguments], [result] being the slice built so
    far.  On a missing key the function returns a nil slice and the error. *)
Fixpoint parseDynamicArguments_loop (dynamicArgs : list string)
    (storage : teststorage.SafeMap) (result : list string)
    : list string * option error :=
  match dynamicArgs with
  | [] => (result, None)
  | key :: rest =>
      let prefixedKey := strings.HasPrefix key "-" || strings.HasPrefix key "strip_" in
      if prefixedKey then
        let key := if strings.HasPrefix key "strip_"
                   then strings.Replace key "strip_" "" 1 else key in
        parseDynamicArguments_loop rest storage (result ++ [key])
      else
        match teststorage.Get key storage with
        | None => ([], Some (missingKeyMsg key))
        | Some value => parseDynamicArguments_loop rest storage (result ++ [value])
        end
  end.

Definition parseDynamicArguments (dynamicArgs : list string)
    (storage : teststorage.SafeMap) : list string * option error :=
  parseDynamicArguments_loop dynamicArgs storage [].

(** ** [execution.go]: the redaction of the password flag

    The pattern of [redactPasswordFlag] uses four constructs of the RE2
    syntax: literals, the optional [?], a character class and a repeated
    negated class.  [regexp] returns the match a backtracking search finds
    first (leftmost, greedy operators trying the longer alternative first),
    which [rematch] computes with a continuation for the rest of the
    pattern.  A class is compared byte by byte: the bytes of the classes at
    hand are ASCII. *)
Module redact.

Inductive re : Type :=
| Lit (s : string)                        (* a literal string *)
| Quest (r : re)                          (* r? *)
| Class (neg : bool) (cs : list ascii)    (* [cs] or [^cs] *)
| PlusClass (neg : bool) (cs : list ascii)  (* [cs]+ or [^cs]+ *)
| Cat (r1 r2 : re).

Definition inClass (neg : bool) (cs : list ascii) (c : ascii) : bool :=
  xorb neg (existsb (Ascii.eqb c) cs).

(** One or more bytes of the class, as many as the continuation allows. *)
Fixpoint plusClass {A} (neg : bool) (cs : list ascii) (s : string)
    (k : string -> option A) : option A :=
  match s with
  | EmptyString => None
  | String c s' =>
      if inClass neg cs c then
        match plusClass neg cs s' k with
        | Some x => Some x
        | None => k s'
        end
      else None
  end.

(** A match of [r] at the head of [s], continued by [k] on the rest. *)
Fixpoint rematch {A} (r : re) (s : string) (k : string -> option A) : option A :=
  match r with
  | Lit lit =>
      match strings.CutPrefix s lit with
      | Some s' => k s'
      | None => None
      end
  | Quest r1 =>
      match rematch r1 s k with
      | Some x => Some x
      | None => k s
      end
  | Class neg cs =>
      match s with
      | EmptyString => None
      | String c s' => if inClass neg cs c then k s' else None
      end
  | PlusClass neg cs => plusClass neg cs s k
  | Cat r1 r2 => rematch r1 s (fun s' => rematch r2 s' k)
  end.

(** The length of the match of [r] at the head of [s], if there is one. *)
Definition matchLen (r : re) (s : string) : option nat :=
  rematch r s (fun rest => Some (String.length s - String.length rest)).

(** [re.ReplaceAllString(s, repl)] for a pattern without empty matches and
    a replacement without [$]: the text is scanned from the left, every
    match is replaced and the scan resumes after it.  [skip] counts the
    bytes of the current match still to drop. *)
Fixpoint ReplaceAllString (r : re) (s repl : string) (skip : nat) : string :=
  match s with
  | EmptyString => EmptyString
  | String c s' =>
      match skip with
      | S skip' => ReplaceAllString r s' repl skip'
      | O =>
          match matchLen r s with
          | Some (S n) => repl +:+ ReplaceAllString r s' repl n
          | _ => String c (ReplaceAllString r s' repl 0)
          end
      end
  end.

(** [(?m)\-\-pass?[ =]([^ ]+)]; the flag [m] only changes [^] and [$]. *)
Definition passPattern : re :=
  Cat (Lit "--pas")
    (Cat (Quest (Lit "s"))
       (Cat (Class false [" "%char; "="%char])
          (PlusClass true [" "%char]))).

End redact.

Definition redactPasswordFlag (cmd : string) : string :=
  redact.ReplaceAllString redact.passPattern cmd "--pass [REDACTED]" 0.

(** ** [execution.go]: the search for the binary

    The file system is a tree under the root directory, every entry readable
    ([Lstat] and the directory reads succeed on the paths that exist), and a
    directory lists its entries in the order [filepath.Walk] visits them.
    An absolute path is the list of its components from the root, [[]]
    being the root itself. *)
Module filepath.

#[warning="-register-all"]
Inductive node : Type :=
| RegularFile
| Directory (entries : list (string * node)).

Definition isDir (n : node) : bool :=
  match n with
  | RegularFile => false
  | Directory _ => true
  end.

Record FileInfo : Type := { Name : string; IsDir : bool }.

(** What a [WalkFunc] returns besides [nil]. *)
Inductive walkError : Type :=
| SkipDir
| Other (e : error).

Definition isSkipDir (e : walkError) : bool :=
  match e with
  | SkipDir => true
  | Other _ => false
  end.

(** The node at an absolute path. *)
Fixpoint lookup (n : node) (p : list string) : option node :=
  match p with
  | [] => Some n
  | name :: p' =>
      match n with
      | RegularFile => None
      | Directory entries =>
          match list_find (fun e => e.1 = name) entries with
          | Some (_, e) => lookup e.2 p'
          | None => None
          end
      end
  end.

(** [filepath.Directory(p)]: the parent; the root is its own parent. *)
Definition Dir (p : list string) : list string := removelast p.

(** [filepath.Base(p)], the name [Lstat] reports. *)
Definition Base (p : list string) : string := List.last p "/".

(** [filepath.Rel(p, path)] for a [path] below [p]. *)
Definition Rel (p path : list string) : string :=
  match drop (length p) path with
  | [] => "."
  | rest => strings.Join rest "/"
  end.

(** [filepath.Join("..", rel)] for a clean relative [rel]. *)
Definition JoinParent (rel : string) : string :=
  if String.eqb rel "" then ".."
  else if String.eqb rel "." then ".."
  else "../" +:+ rel.

(** The unexported [walk]: the function is called on the node, then on
    the entries of a directory in order.  [SkipDir] from a directory skips
    that directory, [SkipDir] from a file skips the rest of the directory
    the file is in. *)
Fixpoint walk {S : Type}
    (walkFn : list string -> FileInfo -> S -> S * option walkError)
    (path : list string) (name : string) (n : node) (st : S)
    : S * option walkError :=
  match n with
  | RegularFile => walkFn path {| Name := name; IsDir := false |} st
  | Directory entries =>
      let '(st, err1) := walkFn path {| Name := name; IsDir := true |} st in
      match err1 with
      | Some _ => (st, err1)
      | None =>
          (fix each (names : list (string * node)) (st : S) : S * option walkError :=
             match names with
             | [] => (st, None)
             | (name', child) :: names' =>
                 let '(st, err) := walk walkFn (path ++ [name']) name' child st in
                 match err with
                 | None => each names' st
                 | Some e =>
                     if isDir child && isSkipDir e then each names' st
                     else (st, Some e)
                 end
             end) entries st
      end
  end.

(** [filepath.Walk(root, fn)] on an existing [root]. *)
Definition Walk {S : Type} (root : list string) (n : node)
    (fn : list string -> FileInfo -> S -> S * option walkError) (st : S)
    : S * option error :=
  let '(st, err) := walk fn root (Base root) n st in
  match err with
  | Some (Other e) => (st, Some e)
  | _ => (st, None)
  end.

End filepath.

(** The function literal [FindBinaryPath] passes to [filepath.Walk]; the
    state is the captured variable [binaryPath]. *)
Definition findBinaryWalkFn (p : list string) (binary : string)
    (path : list string) (info : filepath.FileInfo) (binaryPath : string)
    : string * option filepath.walkError :=
  if String.eqb (filepath.Name info) binary && negb (filepath.IsDir info) then
    let relPath := filepath.Rel p path in   (* clean: Join leaves it as it is *)
    (relPath, Some filepath.SkipDir)
  else (binaryPath, None).

(** [FindBinaryPath(p, binary)] on the file system [fs], [p] absolute.  The
    function calls itself on the parent directory without a test for the
    root, so the embedding takes the depth of recursion it may use.  When
    [p] does not exist [Walk] hands the function a nil [FileInfo], whose
    [Name] it calls. *)
Fixpoint FindBinaryPath (fuel : nat) (fs : filepath.node) (p : list string)
    (binary : string) : outcome (string * option error) :=
  match fuel with
  | O => OutOfFuel
  | S fuel' =>
      match filepath.lookup fs p with
      | None => Panicked
      | Some n =>
          let '(binaryPath, err) :=
            filepath.Walk p n (findBinaryWalkFn p binary) "" in
          match err with
          | Some e => Returned ("", Some e)
          | None =>
              if String.eqb binaryPath "" then
                call! r := FindBinaryPath fuel' fs (filepath.Dir p) binary in
                Returned (filepath.JoinParent r.1, r.2)
              else Returned (binaryPath, None)
          end
      end
  end.

(** ** The host test framework and the spawned process *)

Module testing.

(** What the engine can observe of a [*testing.T]: whether the test was
    marked failed, and its log. *)
Record T : Type := { failed : bool; output : list string }.

Definition new : T := {| failed := false; output := [] |}.

(** [t.Errorf] and [t.Error]: log, mark as failed, go on. *)
Definition Errorf (msg : string) (t : T) : T :=
  {| failed := true; output := output t ++ [msg] |}.

(** [t.Fatalf] and [t.Fatal]: log, mark as failed, then [FailNow] ends
    the goroutine of the test: the caller does not get control back. *)
Definition Fatalf {A} (msg : string) (t : T) : T * outcome A :=
  (Errorf msg t, Exited).

End testing.

Module exec.

(** The behaviour of the command [exec.Command(bin, args...)] builds. *)
Record Cmd : Type := {
  StdinPipe : option error;     (* the error of cmd.StdinPipe() *)
  Start : option error;         (* the error of cmd.Start() *)
  (* standard output, standard error and the error of cmd.Wait(), given
     the text written to the standard input *)
  Wait : string -> string * string * option error;
  (* the same for a process started with a pipe as its standard input, once
     the text has been written to the pipe and while the pipe is still
     open; [None] when the call does not return: the process does not exit
     before its standard input is closed, or does not read what is
     written *)
  WaitPiped : string -> option (string * string * option error);
  (* what the buffers hold of a started process nobody waits for *)
  Unwaited : string * string
}.

(** [cmd.Run()]: [Start], then [Wait]; nothing is captured from a process
    that did not start. *)
Definition Run (cmd : Cmd) : string * string * option error :=
  match Start cmd with
  | Some e => ("", "", Some e)
  | None => Wait cmd ""
  end.

End exec.

(** ** The test case *)

Definition Callback : Type :=
  string -> string -> teststorage.SafeMap -> teststorage.SafeMap * option error.

(** [TestCallback] is a Go map; the list gives its entries in the order the
    [range] loop of [Run] meets them. *)
Definition TestCallback : Type := list (string * Callback).

Record Args : Type := {
  Args_Args : list string;
  Config : list string;
  DynamicArgs : list string;
  Interactive : list string
}.

Record Test : Type := {
  Name : string;
  Binary : string;
  FindBinary : bool;
  Test_Args : Args;
  Assert : Assertions;
  Callbacks : TestCallback;
  WaitBeforeRun : nat;
  Parallel : bool
}.

(** [tc.Run(out, storage)]. *)
Definition TestCallback_Run (tc : TestCallback) (out : string)
    (storage : teststorage.SafeMap) : teststorage.SafeMap * option error :=
  let '(storage, errs) :=
    foldl (fun '(storage, errs) '(key, callback) =>
             let '(storage, err) := (callback : Callback) out key storage in
             (storage, match err with Some e => errs ++ [e] | None => errs end))
          (storage, []) tc in
  (storage, NewPrefixedError "callback" (errorsJoin errs)).

Definition failRed : string :=
  String (ascii_of_nat 27) "[31;1mFAIL" +:+ String (ascii_of_nat 27) "[0m".

(** The verb [%d]. *)
Definition fmt_int (n : nat) : string := NilEmpty.string_of_uint (Nat.to_uint n).

Definition testTag (testN : nat) : string :=
  "[Test " +:+ fmt_int testN +:+ "][" +:+ failRed +:+ "]".

Definition startErrMsg (testN : nat) (bin printableArgs : string)
    (err : option error) (wantErr : bool) (stderr : string) : string :=
  testTag testN +:+ ": Command " +:+ bin +:+ " " +:+ printableArgs
  +:+ " error = " +:+ fmt_error err +:+ ", wantErr = " +:+ fmt_bool wantErr
  +:+ ", stderr = " +:+ stderr.

(** [fmt.Sprintln(line)] for every line written to the pipe. *)
Definition stdinText (interactive : list string) : string :=
  foldr (fun line rest => line +:+ newline +:+ rest) "" interactive.

(** The report of a case is a [multierror.Prefixed] of the cloud SDK, a
    package outside this repository: [PrefixedText prefix errs] is the text
    [t.Error] logs for the value [multierror.NewPrefixed(prefix)] to which
    the errors [errs] were appended. *)
Class MultierrorPkg : Type := {
  PrefixedText : string -> list error -> string
}.

Section Execution.

Context `{RegexpPkg} `{MultierrorPkg}.

(** The operating system: the commands it runs, its files and the working
    directory of the test binary. *)
Variable Command : string -> list string -> exec.Cmd.
Variable fs : filepath.node.
Variable cwd : list string.

(** [runCommand(t, bin, testN, args, interactive, wantErr)]: the state of
    [t] after the call and, when the call returns, the two buffers and
    the error.  The deferred [stdin.Close()] runs when the function
    returns, that is after [cmd.Wait()]. *)
Definition runCommand (t : testing.T) (bin : string) (testN : nat)
    (args interactive : list string) (wantErr : bool)
    : testing.T * outcome (string * string * option error) :=
  let cmd := Command bin args in
  if length interactive =? 0 then (t, Returned (exec.Run cmd))
  else
    match exec.StdinPipe cmd with
    | Some _ =>
        testing.Fatalf
          (testTag testN +:+ ": Command " +:+ bin +:+ ": failed to create stdin pipe") t
    | None =>
        let err := exec.Start cmd in
        if negb (eqb (bool_decide (err ≠ None)) wantErr) then
          let '(stdout, stderr) :=
            match err with
            | Some _ => ("", "")
            | None => exec.Unwaited cmd
            end in
          let printableArgs := redactPasswordFlag (strings.Join args " ") in
          let t := testing.Errorf
                     (startErrMsg testN bin printableArgs err wantErr stderr) t in
          (t, Returned (stdout, stderr, err))
        else
          (* the lines are written, the pipe stays open ([stdin.Close] is
             deferred), and [cmd.Wait] is called; on a command that did
             not start it reports so at once *)
          match err with
          | Some _ => (t, Returned ("", "", Some (errorString "exec: not started")))
          | None =>
              match exec.WaitPiped cmd (stdinText interactive) with
              | Some result => (t, Returned result)
              | None => (t, Blocked)
              end
          end
    end.

(** The part of [executeTestCase] after [runCommand] has returned: the
    assertions, the callbacks and the report.  The errors are collected in
    a [multierror.Prefixed] of the cloud SDK, which is logged when it holds
    an error. *)
Definition judge (t : testing.T) (testN : nat) (tt : Test)
    (storage : teststorage.SafeMap) (binary : string) (args : list string)
    (stdout stderr : string) (err : option error)
    : testing.T * teststorage.SafeMap * outcome unit :=
  let merr := [] in
  match Ensure (Assert tt) stdout stderr err storage
          (redactPasswordFlag (strings.Join (binary :: args) " ")) with
  | Returned aerr =>
      let merr := appendErr merr aerr in
      let '(storage, cerr) := TestCallback_Run (Callbacks tt) stdout storage in
      let merr := appendErr merr cerr in
      if 0 <? length merr
      then (testing.Errorf (PrefixedText (testTag testN) merr) t,
            storage, Returned ())
      else (t, storage, Returned ())
  | Panicked => (t, storage, Panicked)
  | Exited => (t, storage, Exited)
  | OutOfFuel => (t, storage, OutOfFuel)
  | Blocked => (t, storage, Blocked)
  end.

(** [executeTestCase(t, testN, tt, storage)]; [fuel] bounds the recursion
    of [FindBinaryPath].  [t.Parallel()] only concerns the scheduling of the
    host framework. *)
Definition executeTestCase (fuel : nat) (t : testing.T) (testN : nat) (tt : Test)
    (storage : teststorage.SafeMap)
    : testing.T * teststorage.SafeMap * outcome unit :=
  let '(dynamicArgs, err) :=
    parseDynamicArguments (DynamicArgs (Test_Args tt)) storage in
  match err with
  | Some e =>
      let '(t, o) := testing.Fatalf (testTag testN +:+ ": " +:+ Error e) t in
      (t, storage, o)
  | None =>
      let args := (Config (Test_Args tt) ++ Args_Args (Test_Args tt)) ++ dynamicArgs in
      if String.eqb (Binary tt) "" then
        let '(t, o) :=
          testing.Fatalf
            (testTag testN +:+ ": binary not set, please set a binary name") t in
        (t, storage, o)
      else
        let binary := Binary tt in
        let found :=
          if FindBinary tt then FindBinaryPath fuel fs cwd binary
          else Returned (binary, None) in
        match found with
        | Returned (_, Some e) =>
            let '(t, o) := testing.Fatalf (Error e) t in (t, storage, o)
        | Returned (binary, None) =>
            let '(t, r) :=
              runCommand t binary testN args (Interactive (Test_Args tt))
                (WantErr (Assert tt)) in
            match r with
            | Returned (stdout, stderr, err) =>
                judge t testN tt storage binary args stdout stderr err
            | Panicked => (t, storage, Panicked)
            | Exited => (t, storage, Exited)
            | OutOfFuel => (t, storage, OutOfFuel)
            | Blocked => (t, storage, Blocked)
            end
        | Panicked => (t, storage, Panicked)
        | Exited => (t, storage, Exited)
        | OutOfFuel => (t, storage, OutOfFuel)
        | Blocked => (t, storage, Blocked)
        end
  end.

End Execution.

(** ** Notions the statements below use *)

(** Whether a token of [DynamicArgs] carries one of the two markers. *)
Definition prefixedKey (key : string) : bool :=
  strings.HasPrefix key "-" || strings.HasPrefix key "strip_".

(** What the specification asks a token to resolve to: the token without
    its [strip_] marker, the flag itself, or the value stored under it. *)
Definition resolveToken (storage : teststorage.SafeMap) (key : string) : option string :=
  match strings.CutPrefix key "strip_" with
  | Some rest => Some rest
  | None => if strings.HasPrefix key "-" then Some key
            else teststorage.Get key storage
  end.

(** Whether the tree [n], entered under the name [name], holds a file that
    is not a directory and is called [binary]. *)
Fixpoint hasFile (binary name : string) (n : filepath.node) : bool :=
  match n with
  | filepath.RegularFile => String.eqb name binary
  | filepath.Directory entries =>
      (fix any (l : list (string * filepath.node)) : bool :=
         match l with
         | [] => false
         | (name', child) :: l' => hasFile binary name' child || any l'
         end) entries
  end.

(** A stand-in for package [regexp] to run examples with: the pattern
    made of one opening parenthesis does not compile (Go reports a missing
    closing parenthesis), any other pattern is searched as literal text, as
    Go does for patterns free of metacharacters. *)
Fixpoint literalIndex (pattern s : string) (at_ : nat) : option (nat * nat) :=
  if strings.HasPrefix s pattern then Some (at_, at_ + String.length pattern)
  else match s with
       | EmptyString => None
       | String _ s' => literalIndex pattern s' (S at_)
       end.

Definition literalRegexp : RegexpPkg :=
  {| Regexp := string;
     Compile := fun pattern => if String.eqb pattern "(" then None else Some pattern;
     FindStringIndex := fun re s => literalIndex re s 0 |}.

(** A stand-in for the text of a [multierror.Prefixed] to run examples
    with: the prefix and the texts of the errors, one per line. *)
Definition plainMultierror : MultierrorPkg :=
  {| PrefixedText := fun prefix errs => prefix +:+ ": " +:+ fmt_error (errorsJoin errs) |}.

(** ** Sample inputs *)

(** The expected [A\n], strictly. *)
Definition strictExample : Assertion :=
  {| Output := ["A" +:+ newline]; Errors := []; Dynamic := [];
     Strict := true; Pattern := [] |}.

(** Two distinct expected strings, strictly. *)
Definition twoOutputsExample : Assertion :=
  {| Output := ["a"; "b"]; Errors := []; Dynamic := [];
     Strict := true; Pattern := [] |}.

(** A known failure on the standard error, next to rules that fail and a
    pattern that does not compile. *)
Definition knownFailureExample : Assertions :=
  {| WantErr := false; CanError := false;
     CanErrorWithMessage := ["timeout"; "connection refused"];
     Must := {| Output := ["never printed"]; Errors := ["never logged"];
                Dynamic := ["missing-key"]; Strict := true; Pattern := ["("] |};
     Not := {| Output := [""]; Errors := ["refused"]; Dynamic := [];
               Strict := false; Pattern := [] |} |}.

(** A file system without any file called [ecl]. *)
Definition noBinaryExample : filepath.node :=
  filepath.Directory
    [("home", filepath.Directory
                [("project", filepath.Directory [("main.go", filepath.RegularFile);
                                           ("ecl", filepath.Directory [])])]);
     ("tmp", filepath.Directory [])].

(** The layout of [TestFindEclPath], seen from the root. *)
Definition findEclExample : filepath.node :=
  filepath.Directory
    [("pkg", filepath.Directory
               [("apath", filepath.Directory [("aweirdbinaryname", filepath.RegularFile)]);
                ("engine", filepath.Directory [("execution.go", filepath.RegularFile)])])].

(** A machine on which no command starts. *)
Definition startError : error := errorString "exec: no such file or directory".

Definition failingCommand (bin : string) (args : list string) : exec.Cmd :=
  {| exec.StdinPipe := None;
     exec.Start := Some startError;
     exec.Wait := fun _ => ("", "", Some startError);
     exec.WaitPiped := fun _ => Some ("", "", Some startError);
     exec.Unwaited := ("", "") |}.

(** A callback that stores the output under its key. *)
Definition storeOutput : Callback :=
  fun output storageKey storage => (teststorage.Set_ storageKey output storage, None).

(** An interactive case that expects no error and a greeting on the
    standard output. *)
Definition interactiveExample : Test :=
  {| Name := "login";
     Binary := "ecl";
     FindBinary := false;
     Test_Args := {| Args_Args := ["login"]; Config := []; DynamicArgs := [];
                      Interactive := ["admin"] |};
     Assert := {| WantErr := false; CanError := true; CanErrorWithMessage := [];
                  Must := {| Output := ["welcome"]; Errors := []; Dynamic := [];
                             Strict := false; Pattern := [] |};
                  Not := {| Output := []; Errors := []; Dynamic := [];
                            Strict := false; Pattern := [] |} |};
     Callbacks := [("session", storeOutput)];
     WaitBeforeRun := 0;
     Parallel := false |}.

(** ** Further notions and sample inputs *)

(** A sequence of [Set] calls, in order. *)
Definition setAll (entries : list (string * string)) (m : teststorage.SafeMap)
    : teststorage.SafeMap :=
  foldl (fun m e => teststorage.Set_ e.1 e.2 m) m entries.

(** [sub] occurs in [s]. *)
Definition substringOf (sub s : string) : Prop :=
  ∃ before after, s = before +:+ sub +:+ after.

(** What [Must] asks of the two streams and of the store, and what [Not]
    forbids. *)
Definition mustOutput (out : string) (w : Assertion) : Prop :=
  ∀ want, want ∈ Output w → if Strict w then out = want else substringOf want out.

Definition mustPattern `{RegexpPkg} (out : string) (w : Assertion) : Prop :=
  ∀ pattern re, pattern ∈ Pattern w → Compile pattern = Some re →
                is_Some (FindStringIndex re out).

Definition mustErrors (stderr : string) (w : Assertion) : Prop :=
  ∀ want, want ∈ Errors w → substringOf want stderr.

Definition mustDynamic (out : string) (storage : teststorage.SafeMap)
    (w : Assertion) : Prop :=
  ∀ key, key ∈ Dynamic w →
         substringOf (default key (teststorage.db storage !! key)) out.

Definition mustNot (out stderr : string) (not : Assertion) : Prop :=
  (∀ m, m ∈ Output not → if Strict not then out ≠ m else ¬ substringOf m out)
  ∧ (∀ m, m ∈ Errors not → ¬ substringOf m stderr).

(** The loop of [filepath.walk] over the entries of the directory at
    [path], under a name of its own. *)
Definition walkEntries {S : Type}
    (walkFn : list string → filepath.FileInfo → S → S * option filepath.walkError)
    (path : list string)
    : list (string * filepath.node) → S → S * option filepath.walkError :=
  fix each (names : list (string * filepath.node)) (st : S) :=
    match names with
    | [] => (st, None)
    | (name', child) :: names' =>
        let '(st, err) := filepath.walk walkFn (path ++ [name']) name' child st in
        match err with
        | None => each names' st
        | Some e =>
            if filepath.isDir child && filepath.isSkipDir e then each names' st
            else (st, Some e)
        end
    end.

(** Whether the components [q] lead from the node [n] to a file that is not
    a directory. *)
Fixpoint fileAt (n : filepath.node) (q : list string) : Prop :=
  match q with
  | [] => n = filepath.RegularFile
  | name :: q' =>
      match n with
      | filepath.RegularFile => False
      | filepath.Directory entries =>
          ∃ child, (name, child) ∈ entries ∧ fileAt child q'
      end
  end.

(** [k] times the parent of [p], and [k] times [../] before [rel]. *)
Definition ancestor (k : nat) (p : list string) : list string :=
  Nat.iter k filepath.Dir p.

Definition parents (k : nat) (rel : string) : string :=
  Nat.iter k (fun r => "../" +:+ r) rel.

(** What a walk of [FindBinaryPath] leaves in [binaryPath]: the old value,
    or the path of a file called [binary] below the node, relative to [p];
    and the walk ends without an error of its own. *)
Definition walkPost (p : list string) (binary : string) (path : list string)
    (n : filepath.node) (st : string)
    (res : string * option filepath.walkError) : Prop :=
  (res.2 = None ∨ res.2 = Some filepath.SkipDir)
  ∧ (res.1 = st
     ∨ ∃ q, fileAt n q ∧ filepath.Base (path ++ q) = binary
            ∧ res.1 = filepath.Rel p (path ++ q)).

(** One turn of the loop of [TestCallback.Run]. *)
Definition callbackStep (out : string)
    : teststorage.SafeMap * list error → string * Callback
      → teststorage.SafeMap * list error :=
  fun '(storage, errs) '(key, callback) =>
    let '(storage, err) := (callback : Callback) out key storage in
    (storage, match err with Some e => errs ++ [e] | None => errs end).

(** Rules that the output [ready] and an empty standard error meet. *)
Definition passingExample : Assertions :=
  {| WantErr := false; CanError := false; CanErrorWithMessage := [];
     Must := {| Output := ["read"]; Errors := []; Dynamic := ["ready"];
                Strict := false; Pattern := ["ready"; "ea"] |};
     Not := {| Output := ["failed"]; Errors := ["panic"]; Dynamic := [];
               Strict := false; Pattern := [] |} |}.

(** Two directories that both hold a file called [ecl]. *)
Definition twoBinariesExample : filepath.node :=
  filepath.Directory
    [("bin", filepath.Directory [("ecl", filepath.RegularFile)]);
     ("dist", filepath.Directory [("ecl", filepath.RegularFile);
                                  ("README", filepath.RegularFile)])].

(** A machine on which every command starts and prints [ready]. *)
Definition readyCommand (bin : string) (args : list string) : exec.Cmd :=
  {| exec.StdinPipe := None;
     exec.Start := None;
     exec.Wait := fun _ => ("ready", "", None);
     exec.WaitPiped := fun _ => Some ("ready", "", None);
     exec.Unwaited := ("", "") |}.

(** A case with a dynamic argument, one without a binary, and one that
    passes on [readyCommand]. *)
Definition dynamicExample : Test :=
  {| Name := "show"; Binary := "ecl"; FindBinary := false;
     Test_Args := {| Args_Args := ["show"]; Config := []; DynamicArgs := ["id"];
                     Interactive := [] |};
     Assert := passingExample; Callbacks := [];
     WaitBeforeRun := 0; Parallel := false |}.


Definition readyExample : Test :=
  {| Name := "status"; Binary := "ecl"; FindBinary := false;
     Test_Args := {| Args_Args := ["status"]; Config := ["--verbose"];
                     DynamicArgs := []; Interactive := [] |};
     Assert := passingExample; Callbacks := [("status", storeOutput)];
     WaitBeforeRun := 0; Parallel := false |}.

(** * Properties *)

(** ** Strings *)

Lemma append_cons (c : ascii) (s t : string) : String c s +:+ t = String c (s +:+ t).
Proof. reflexivity. Qed.

Lemma append_nil_l (t : string) : "" +:+ t = t.
Proof. reflexivity. Qed.

Lemma append_assoc (s t u : string) : (s +:+ t) +:+ u = s +:+ t +:+ u.
Proof.
  induction s as [|c s IH]; [reflexivity|].
  rewrite !append_cons. by rewrite IH.
Qed.

Lemma HasPrefix_spec (s prefix : string) :
  strings.HasPrefix s prefix = true ↔ ∃ rest, s = prefix +:+ rest.
Proof.
  revert s. induction prefix as [|p prefix IH]; intros s.
  - split; [intros _; by exists s | done].
  - destruct s as [|c s]; cbn [strings.HasPrefix].
    + split; [done | intros [rest Hrest]; discriminate Hrest].
    + destruct (Ascii.eqb_spec c p) as [->|Hne].
      * rewrite IH. split; intros [rest Hrest]; exists rest.
        -- by rewrite append_cons, Hrest.
        -- rewrite append_cons in Hrest. by injection Hrest.
      * split; [done|]. intros [rest Hrest].
        rewrite append_cons in Hrest. by injection Hrest.
Qed.

Lemma Contains_spec (s substr : string) :
  strings.Contains s substr = true ↔ ∃ before after, s = before +:+ substr +:+ after.
Proof.
  induction s as [|c s IH]; cbn [strings.Contains].
  - rewrite orb_false_r, HasPrefix_spec. split.
    + intros [rest Hrest]. by exists "", rest.
    + intros [before [after Hs]]. destruct before as [|b before].
      * by exists after.
      * discriminate Hs.
  - rewrite orb_true_iff, HasPrefix_spec, IH. split.
    + intros [[rest Hrest]|[before [after Hs]]].
      * by exists "", rest.
      * exists (String c before), after. by rewrite append_cons, Hs.
    + intros [before [after Hs]]. destruct before as [|b before].
      * left. by exists after.
      * right. rewrite append_cons in Hs. injection Hs as _ Hs.
        by exists before, after.
Qed.

(** ** The accumulating loops *)

(** A loop that appends [f x] for every [x] with [miss x] builds the list of
    these errors in the order of the elements. *)
Lemma foldl_accumulate {A} (miss : A → bool) (f : A → error) (l : list A)
    (errs : list error) :
  foldl (fun errs x => if miss x then errs ++ [f x] else errs) errs l
  = errs ++ List.map f (List.filter miss l).
Proof.
  revert errs. induction l as [|x l IH]; intros errs; cbn [foldl List.filter List.map].
  - by rewrite app_nil_r.
  - rewrite IH. destruct (miss x); cbn [List.map]; [|done].
    by rewrite <- app_assoc.
Qed.

Lemma filter_nil_iff {A} (miss : A → bool) (l : list A) :
  List.filter miss l = [] ↔ ∀ x, x ∈ l → miss x = false.
Proof.
  induction l as [|x l IH]; cbn [List.filter].
  - split; [intros _ x Hx; by apply elem_of_nil in Hx | done].
  - destruct (miss x) eqn:Hx.
    + split; [done|]. intros Hall.
      specialize (Hall x (list_elem_of_here _ _)). congruence.
    + rewrite IH. split.
      * intros Hall y [->|Hy]%elem_of_cons; auto.
      * intros Hall y Hy. apply Hall. by apply list_elem_of_further.
Qed.

(** The tail of every assertion: no error when nothing was accumulated. *)
Lemma prefixed_join_None (prefix : string) (errs : list error) :
  (if 0 <? length errs then NewPrefixedError prefix (errorsJoin errs) else None) = None
  ↔ errs = [].
Proof. destruct errs; cbn; split; done. Qed.

(** ** [assertWanted] *)

(** The errors of the must-output loop: one per expected string that is not
    the whole standard output (strict) or not part of it (otherwise). *)
Lemma assertWanted_errs_eq (out : string) (w : Assertion) :
  assertWanted_errs out w =
  if Strict w
  then List.map (wantedStrictMsg out)
         (List.filter (fun want => negb (String.eqb out want)) (Output w))
  else List.map (wantedMissMsg out)
         (List.filter (fun want => negb (strings.Contains out want)) (Output w)).
Proof.
  unfold assertWanted_errs. destruct (Strict w); cbn [andb negb].
  - apply (foldl_accumulate (fun want => negb (String.eqb out want))).
  - apply (foldl_accumulate (fun want => negb (strings.Contains out want))).
Qed.

Lemma assertWanted_None (out : string) (w : Assertion) :
  assertWanted out w = None ↔
  ∀ want, want ∈ Output w →
    if Strict w then out = want else strings.Contains out want = true.
Proof.
  unfold assertWanted. cbv zeta. rewrite prefixed_join_None, assertWanted_errs_eq.
  destruct (Strict w).
  - split.
    + intros Hnil want Hwant.
      apply map_eq_nil in Hnil.
      pose proof (proj1 (filter_nil_iff _ _) Hnil want Hwant) as Hm.
      apply negb_false_iff in Hm. by apply String.eqb_eq.
    + intros Hall.
      replace (List.filter _ (Output w)) with (@nil string); [done|].
      symmetry. apply filter_nil_iff. intros want Hwant.
      apply negb_false_iff, String.eqb_eq. by apply Hall.
  - split.
    + intros Hnil want Hwant.
      apply map_eq_nil in Hnil.
      pose proof (proj1 (filter_nil_iff _ _) Hnil want Hwant) as Hm.
      by apply negb_false_iff in Hm.
    + intros Hall.
      replace (List.filter _ (Output w)) with (@nil string); [done|].
      symmetry. apply filter_nil_iff. intros want Hwant.
      apply negb_false_iff. by apply Hall.
Qed.

(** C5: the must-output check passes exactly when every expected string is
    equal to the whole standard output if [Strict] is set, and is a
    substring of it otherwise; containment is not accepted in strict mode,
    so the expected [A\n] against the actual [A\n\n] fails. *)
Theorem assertWanted_strict_exact (out : string) (w : Assertion) :
  (assertWanted out w = None ↔
     ∀ want, want ∈ Output w →
       if Strict w then out = want
       else ∃ before after, out = before +:+ want +:+ after)
  ∧ assertWanted ("A" +:+ newline +:+ newline) strictExample ≠ None
  ∧ strings.Contains ("A" +:+ newline +:+ newline) ("A" +:+ newline) = true.
Proof.
  split; [|split; [discriminate | reflexivity]].
  rewrite assertWanted_None. split; intros Hall want Hwant;
    specialize (Hall want Hwant); destruct (Strict w); try done;
    by apply Contains_spec.
Qed.

(** C10: a strict must-output list with two distinct strings fails on every
    standard output. *)
Theorem assertWanted_strict_two_distinct (out : string) (w : Assertion)
    (want1 want2 : string) :
  Strict w = true →
  want1 ∈ Output w → want2 ∈ Output w → want1 ≠ want2 →
  assertWanted out w ≠ None.
Proof.
  intros Hstrict H1 H2 Hne Hpass.
  rewrite assertWanted_None in Hpass.
  pose proof (Hpass want1 H1) as E1. pose proof (Hpass want2 H2) as E2.
  rewrite Hstrict in E1, E2. congruence.
Qed.

Lemma assertWanted_strict_two_distinct_witness :
  Strict twoOutputsExample = true
  ∧ "a" ∈ Output twoOutputsExample ∧ "b" ∈ Output twoOutputsExample
  ∧ "a" ≠ "b"
  ∧ assertWanted "a" twoOutputsExample ≠ None.
Proof.
  assert (Ha : "a" ∈ Output twoOutputsExample) by apply list_elem_of_here.
  assert (Hb : "b" ∈ Output twoOutputsExample)
    by apply list_elem_of_further, list_elem_of_here.
  assert (Hne : "a" ≠ "b") by discriminate.
  split; [reflexivity|]. split; [exact Ha|]. split; [exact Hb|].
  split; [exact Hne|].
  exact (assertWanted_strict_two_distinct "a" twoOutputsExample "a" "b"
           eq_refl Ha Hb Hne).
Defined.

(** ** [assertDynamic] *)

Lemma assertDynamic_errs_eq (out : string) (dynamic : list string)
    (storage : teststorage.SafeMap) :
  assertDynamic_errs out dynamic storage =
  List.map (fun key => dynamicMissMsg out key (dynamicValue key storage))
    (List.filter (fun key => negb (strings.Contains out (dynamicValue key storage)))
       dynamic).
Proof.
  apply (foldl_accumulate
           (fun key => negb (strings.Contains out (dynamicValue key storage)))
           (fun key => dynamicMissMsg out key (dynamicValue key storage))).
Qed.

Lemma dynamicValue_default (key : string) (storage : teststorage.SafeMap) :
  dynamicValue key storage = default key (teststorage.db storage !! key).
Proof. unfold dynamicValue, teststorage.Get. by destruct (_ !! _). Qed.

(** C7: for a key of [Must.Dynamic] the expected value is the stored value,
    or the key itself when the store has none; the check passes exactly when
    every expected value is a substring of the standard output, and every
    key whose value is missing adds an error of its own, in order. *)
Theorem assertDynamic_expected_value (out : string) (dynamic : list string)
    (storage : teststorage.SafeMap) :
  assertDynamic_errs out dynamic storage
  = List.map
      (fun key => dynamicMissMsg out key (default key (teststorage.db storage !! key)))
      (List.filter
         (fun key => negb (strings.Contains out
                             (default key (teststorage.db storage !! key))))
         dynamic)
  ∧ (assertDynamic out dynamic storage = None ↔
       ∀ key, key ∈ dynamic →
         ∃ before after,
           out = before +:+ default key (teststorage.db storage !! key) +:+ after)
  ∧ (∀ errs, assertDynamic_errs out dynamic storage = errs → errs ≠ [] →
       assertDynamic out dynamic storage
       = Some (PrefixedError "must find values from dynamic storage" (joinError errs))).
Proof.
  assert (Heq : assertDynamic_errs out dynamic storage
    = List.map
        (fun key => dynamicMissMsg out key (default key (teststorage.db storage !! key)))
        (List.filter
           (fun key => negb (strings.Contains out
                               (default key (teststorage.db storage !! key))))
           dynamic)).
  { rewrite assertDynamic_errs_eq. clear.
    induction dynamic as [|key dynamic IH]; [done|].
    cbn [List.filter]. rewrite dynamicValue_default.
    destruct (negb _); cbn [List.map]; by rewrite IH, ?dynamicValue_default. }
  split; [exact Heq|]. split.
  - unfold assertDynamic. cbv zeta. rewrite prefixed_join_None, Heq. split.
    + intros Hnil key Hkey. apply map_eq_nil in Hnil.
      pose proof (proj1 (filter_nil_iff _ _) Hnil key Hkey) as Hm.
      apply negb_false_iff in Hm. by apply Contains_spec.
    + intros Hall.
      replace (List.filter _ dynamic) with (@nil string); [done|].
      symmetry. apply filter_nil_iff. intros key Hkey.
      apply negb_false_iff, Contains_spec. by apply Hall.
  - intros errs <- Hne. unfold assertDynamic. cbv zeta.
    destruct (assertDynamic_errs out dynamic storage); done.
Qed.

(** ** [assertPattern] *)

Section PatternProperties.

Context `{RegexpPkg}.

(** Patterns that all compile are all searched, and the loop returns. *)
Lemma assertPattern_errs_returns (out : string) (patterns : list string)
    (errs : list error) :
  (∀ pattern, pattern ∈ patterns → is_Some (Compile pattern)) →
  ∃ errs', assertPattern_errs out patterns errs = Returned errs'.
Proof.
  revert errs. induction patterns as [|pattern patterns IH]; intros errs Hall.
  - by exists errs.
  - cbn [assertPattern_errs].
    destruct (Hall pattern (list_elem_of_here _ _)) as [re ->].
    apply IH. intros p Hp. apply Hall. by apply list_elem_of_further.
Qed.

Lemma assertPattern_errs_panics (out : string) (patterns : list string)
    (errs : list error) (pattern : string) :
  pattern ∈ patterns → Compile pattern = None →
  assertPattern_errs out patterns errs = Panicked.
Proof.
  revert errs. induction patterns as [|p patterns IH]; intros errs Hin Hbad.
  - by apply elem_of_nil in Hin.
  - cbn [assertPattern_errs]. destruct (Compile p) as [re|] eqn:Hp; [|done].
    apply IH; [|done]. apply elem_of_cons in Hin as [->|Hin]; [congruence|done].
Qed.

(** C2, as the code has it: a pattern that does not compile is recorded, and
    the search then runs on the nil expression; the check does not return
    the accumulated errors, it panics. *)
Theorem assertPattern_invalid_pattern_panics (out : string)
    (patterns : list string) (pattern : string) :
  pattern ∈ patterns → Compile pattern = None →
  assertPattern out patterns = Panicked.
Proof.
  intros Hin Hbad. unfold assertPattern.
  by rewrite (assertPattern_errs_panics out patterns [] pattern Hin Hbad).
Qed.

(** ** [Ensure] *)

Lemma knownFailure_true (stderrString : string) (messages : list string) :
  knownFailure stderrString messages = true ↔
  ∃ message, message ∈ messages ∧ strings.Contains stderrString message = true.
Proof.
  induction messages as [|m messages IH]; cbn [knownFailure].
  - split; [done|]. intros [message [Hin _]]. by apply elem_of_nil in Hin.
  - destruct (strings.Contains stderrString m) eqn:Hm.
    + split; [|done]. intros _. exists m. split; [apply list_elem_of_here | done].
    + rewrite IH. split; intros [message [Hin Hc]]; exists message.
      * split; [by apply list_elem_of_further | done].
      * split; [|done]. apply elem_of_cons in Hin as [->|Hin]; [congruence|done].
Qed.

Lemma unexpectedErr_true (a : Assertions) (err : option error) :
  unexpectedErr a err = true ↔
  ¬ (is_Some err ↔ WantErr a = true)
  ∧ CanError a = false ∧ CanErrorWithMessage a = [].
Proof.
  unfold unexpectedErr. rewrite !andb_true_iff, !negb_true_iff, Nat.eqb_eq.
  assert (Hlen : length (CanErrorWithMessage a) = 0 ↔ CanErrorWithMessage a = []).
  { destruct (CanErrorWithMessage a); split; done. }
  rewrite Hlen.
  assert (Hdiff : eqb (bool_decide (err ≠ None)) (WantErr a) = false
                  ↔ ¬ (is_Some err ↔ WantErr a = true)).
  { destruct err as [e|], (WantErr a); cbn; split; try done.
    - intros Hn. exfalso. apply Hn. split; [done | by eexists].
    - intros _ [Hs _]. by specialize (Hs (ex_intro _ e eq_refl)).
    - intros _ [_ Hs]. destruct (Hs eq_refl) as [? ?]; done.
    - intros Hn. exfalso. apply Hn. split; [by intros [? ?] | done]. }
  rewrite Hdiff. tauto.
Qed.

(** C1: a message of [CanErrorWithMessage] found in the standard error makes
    [Ensure] return nil, whatever the exit error and whatever the other
    rules say; none of them is evaluated, not even a pattern whose search
    would panic. *)
Theorem Ensure_known_failure_passes (a : Assertions) (stdout stderr : string)
    (err : option error) (storage : teststorage.SafeMap) (args message : string) :
  message ∈ CanErrorWithMessage a →
  (∃ before after, stderr = before +:+ message +:+ after) →
  Ensure a stdout stderr err storage args = Returned None.
Proof.
  intros Hin Hsub. unfold Ensure. cbv zeta.
  destruct (unexpectedErr a err) eqn:Hun.
  - apply unexpectedErr_true in Hun as (_ & _ & Hnil).
    rewrite Hnil in Hin. by apply elem_of_nil in Hin.
  - assert (Hk : knownFailure stderr (CanErrorWithMessage a) = true).
    { apply knownFailure_true. exists message. split; [done|].
      by apply Contains_spec. }
    by rewrite Hk.
Qed.

(** C6: [Ensure] returns at once the single error of the error-expectation
    check, whose text holds the command line, the error, [WantErr] and the
    standard error, exactly when the presence of an error differs from
    [WantErr] while [CanError] is unset and [CanErrorWithMessage] is empty;
    in every other case its result is another one. *)
Theorem Ensure_unexpected_error_iff (a : Assertions) (stdout stderr : string)
    (err : option error) (storage : teststorage.SafeMap) (args : string) :
  (Ensure a stdout stderr err storage args
   = Returned
       (Some (errorString
                ("command: " +:+ String "034" EmptyString +:+ args
                 +:+ String "034" (String "010" EmptyString)
                 +:+ "error = "
                 +:+ match err with
                     | Some e => Error e
                     | None => "<nil>"
                     end
                 +:+ ", wantErr = " +:+ (if WantErr a then "true" else "false")
                 +:+ ", stderr = " +:+ stderr)))
   ↔ ¬ (is_Some err ↔ WantErr a = true)
     ∧ CanError a = false ∧ CanErrorWithMessage a = [])
  ∧ (∀ msg, Error (errorString msg) = msg).
Proof.
  split; [|reflexivity].
  assert (Htext :
    errorString
      ("command: " +:+ String "034" EmptyString +:+ args
       +:+ String "034" (String "010" EmptyString)
       +:+ "error = "
       +:+ match err with
           | Some e => Error e
           | None => "<nil>"
           end
       +:+ ", wantErr = " +:+ (if WantErr a then "true" else "false")
       +:+ ", stderr = " +:+ stderr)
    = ensureErrMsg args err (WantErr a) stderr).
  { reflexivity. }
  rewrite Htext, <- unexpectedErr_true. unfold Ensure. cbv zeta.
  destruct (unexpectedErr a err); [done|].
  split; [|done]. intros Heq. exfalso.
  destruct (knownFailure stderr (CanErrorWithMessage a)); [discriminate Heq|].
  destruct (assertPattern stdout (Pattern (Must a))) as [perr| | | |];
    cbn [obind] in Heq; try discriminate Heq.
  match type of Heq with
  | (if ?c then _ else _) = _ => destruct c; [|discriminate Heq]
  end.
  match type of Heq with
  | Returned (NewPrefixedError _ ?j) = _ => destruct j; discriminate Heq
  end.
Qed.

End PatternProperties.

Lemma Ensure_known_failure_passes_witness :
  "connection refused" ∈ CanErrorWithMessage knownFailureExample
  ∧ (∃ before after,
       "dial tcp: connection refused" = before +:+ "connection refused" +:+ after)
  ∧ @Ensure literalRegexp knownFailureExample "unrelated output"
      "dial tcp: connection refused" (Some (errorString "exit status 1"))
      teststorage.NewSafeMap "ecl platform info"
    = Returned None.
Proof.
  assert (Hin : "connection refused" ∈ CanErrorWithMessage knownFailureExample)
    by apply list_elem_of_further, list_elem_of_here.
  assert (Hsub : ∃ before after,
             "dial tcp: connection refused" = before +:+ "connection refused" +:+ after)
    by (exists "dial tcp: ", ""; reflexivity).
  split; [exact Hin|]. split; [exact Hsub|].
  exact (@Ensure_known_failure_passes literalRegexp knownFailureExample
           "unrelated output" "dial tcp: connection refused"
           (Some (errorString "exit status 1")) teststorage.NewSafeMap
           "ecl platform info" "connection refused" Hin Hsub).
Defined.

Lemma assertPattern_invalid_pattern_panics_witness :
  "(" ∈ ["ready"; "("]
  ∧ @Compile literalRegexp "(" = None
  ∧ @assertPattern literalRegexp "ready" ["ready"; "("] = Panicked.
Proof.
  assert (Hin : "(" ∈ ["ready"; "("])
    by apply list_elem_of_further, list_elem_of_here.
  split; [exact Hin|]. split; [reflexivity|].
  exact (@assertPattern_invalid_pattern_panics literalRegexp "ready"
           ["ready"; "("] "(" Hin eq_refl).
Defined.

(** ** [parseDynamicArguments] *)

Lemma CutPrefix_spec (s prefix rest : string) :
  strings.CutPrefix s prefix = Some rest ↔ s = prefix +:+ rest.
Proof.
  revert s. induction prefix as [|p prefix IH]; intros s.
  - cbn [strings.CutPrefix]. rewrite append_nil_l. split; congruence.
  - destruct s as [|c s]; cbn [strings.CutPrefix].
    + split; [done | intros Hs; discriminate Hs].
    + rewrite append_cons. destruct (Ascii.eqb_spec c p) as [->|Hne].
      * rewrite IH. split; [by intros -> | by intros [= ->]].
      * split; [done | by intros [= -> _]].
Qed.

Lemma CutPrefix_HasPrefix (s prefix : string) :
  strings.HasPrefix s prefix = true ↔ is_Some (strings.CutPrefix s prefix).
Proof.
  rewrite HasPrefix_spec. split.
  - intros [rest Hrest]. exists rest. by apply CutPrefix_spec.
  - intros [rest Hrest]. exists rest. by apply CutPrefix_spec.
Qed.

Lemma substring_all (s : string) : String.substring 0 (String.length s) s = s.
Proof. induction s as [|c s IH]; cbn; [done | by rewrite IH]. Qed.

Lemma substring_after_prefix (prefix rest : string) (n : nat) :
  String.substring (String.length prefix) (String.length rest + n) (prefix +:+ rest)
  = rest.
Proof.
  induction prefix as [|p prefix IH]; cbn [String.length].
  - rewrite append_nil_l. revert n.
    induction rest as [|c rest IH]; intros n; cbn.
    + by destruct n.
    + by rewrite IH.
  - rewrite append_cons. cbn [String.substring]. exact IH.
Qed.

Lemma length_append (s t : string) :
  String.length (s +:+ t) = String.length s + String.length t.
Proof. induction s as [|c s IH]; cbn; [done | by rewrite <- IH]. Qed.

Lemma Cut_prefix (prefix rest : string) :
  strings.Cut (prefix +:+ rest) prefix = Some ("", rest).
Proof.
  assert (Hp : strings.HasPrefix (prefix +:+ rest) prefix = true)
    by (apply HasPrefix_spec; by exists rest).
  assert (Hsub : String.substring (String.length prefix)
                   (String.length (prefix +:+ rest)) (prefix +:+ rest) = rest).
  { rewrite length_append, (Nat.add_comm (String.length prefix)).
    apply substring_after_prefix. }
  destruct (prefix +:+ rest) as [|c s] eqn:Hs; cbn [strings.Cut];
    rewrite Hp; by rewrite Hsub.
Qed.

(** Replacing the first [strip_] of a token that starts with it removes the
    marker. *)
Lemma Replace_strip (rest : string) :
  strings.Replace ("strip_" +:+ rest) "strip_" "" 1 = rest.
Proof. cbn [strings.Replace]. by rewrite Cut_prefix. Qed.

Lemma resolveToken_strip (storage : teststorage.SafeMap) (rest : string) :
  resolveToken storage ("strip_" +:+ rest) = Some rest.
Proof.
  unfold resolveToken.
  by rewrite (proj2 (CutPrefix_spec ("strip_" +:+ rest) "strip_" rest) eq_refl).
Qed.

Lemma CutPrefix_None (s prefix : string) :
  strings.HasPrefix s prefix = false → strings.CutPrefix s prefix = None.
Proof.
  intros Hp. destruct (strings.CutPrefix s prefix) as [rest|] eqn:Hc; [|done].
  assert (Hs : is_Some (strings.CutPrefix s prefix)) by (by exists rest).
  apply CutPrefix_HasPrefix in Hs. congruence.
Qed.

Lemma resolveToken_flag (storage : teststorage.SafeMap) (key : string) :
  strings.HasPrefix key "-" = true → resolveToken storage key = Some key.
Proof.
  intros Hflag. unfold resolveToken.
  destruct (strings.HasPrefix key "strip_") eqn:Hstrip.
  - destruct key as [|c key]; [discriminate Hflag|].
    cbn in Hflag, Hstrip. destruct (Ascii.eqb_spec c "-") as [->|]; [|done].
    discriminate Hstrip.
  - by rewrite (CutPrefix_None _ _ Hstrip), Hflag.
Qed.

Lemma resolveToken_lookup (storage : teststorage.SafeMap) (key : string) :
  prefixedKey key = false →
  resolveToken storage key = teststorage.db storage !! key.
Proof.
  unfold prefixedKey. intros [Hflag Hstrip]%orb_false_iff. unfold resolveToken.
  by rewrite (CutPrefix_None _ _ Hstrip), Hflag.
Qed.

(** One turn of the loop resolves the token as the specification says. *)
Lemma parseDynamicArguments_loop_step (key : string) (rest : list string)
    (storage : teststorage.SafeMap) (result : list string) :
  parseDynamicArguments_loop (key :: rest) storage result =
  match resolveToken storage key with
  | Some r => parseDynamicArguments_loop rest storage (result ++ [r])
  | None => ([], Some (missingKeyMsg key))
  end.
Proof.
  cbn [parseDynamicArguments_loop]. cbv zeta.
  destruct (strings.HasPrefix key "strip_") eqn:Hstrip.
  - rewrite orb_true_r.
    apply HasPrefix_spec in Hstrip as [tail ->].
    by rewrite resolveToken_strip, Replace_strip.
  - rewrite orb_false_r. destruct (strings.HasPrefix key "-") eqn:Hflag.
    + by rewrite resolveToken_flag.
    + rewrite resolveToken_lookup
        by (unfold prefixedKey; by rewrite Hflag, Hstrip).
      unfold teststorage.Get. by destruct (_ !! _).
Qed.

Lemma parseDynamicArguments_loop_ok (dynamicArgs : list string)
    (storage : teststorage.SafeMap) (result resolved : list string) :
  Forall2 (fun key r => resolveToken storage key = Some r) dynamicArgs resolved →
  parseDynamicArguments_loop dynamicArgs storage result = (result ++ resolved, None).
Proof.
  intros Hall. revert result.
  induction Hall as [|key r dynamicArgs resolved Hkey _ IH]; intros result.
  - by rewrite app_nil_r.
  - rewrite parseDynamicArguments_loop_step, Hkey, IH.
    by rewrite <- app_assoc.
Qed.

Lemma parseDynamicArguments_loop_missing (before after : list string)
    (key : string) (storage : teststorage.SafeMap) (result : list string) :
  (∀ k, k ∈ before → is_Some (resolveToken storage k)) →
  resolveToken storage key = None →
  parseDynamicArguments_loop (before ++ key :: after) storage result
  = ([], Some (missingKeyMsg key)).
Proof.
  revert result. induction before as [|k before IH]; intros result Hbefore Hkey.
  - cbn [app]. by rewrite parseDynamicArguments_loop_step, Hkey.
  - cbn [app]. rewrite parseDynamicArguments_loop_step.
    destruct (Hbefore k (list_elem_of_here _ _)) as [r ->].
    apply IH; [|done]. intros k' Hk'. apply Hbefore. by apply list_elem_of_further.
Qed.

Lemma resolveToken_agree (storage storage' : teststorage.SafeMap) (key : string) :
  (∀ k, prefixedKey k = false →
        teststorage.Get k storage' = teststorage.Get k storage) →
  resolveToken storage' key = resolveToken storage key.
Proof.
  intros Hagree. destruct (prefixedKey key) eqn:Hp.
  - unfold prefixedKey in Hp. destruct (strings.HasPrefix key "strip_") eqn:Hstrip.
    + apply HasPrefix_spec in Hstrip as [tail ->]. by rewrite !resolveToken_strip.
    + rewrite orb_false_r in Hp. by rewrite !resolveToken_flag.
  - rewrite !resolveToken_lookup by done. exact (Hagree key Hp).
Qed.

Lemma parseDynamicArguments_loop_agree (dynamicArgs : list string)
    (storage storage' : teststorage.SafeMap) (result : list string) :
  (∀ k, prefixedKey k = false →
        teststorage.Get k storage' = teststorage.Get k storage) →
  parseDynamicArguments_loop dynamicArgs storage' result
  = parseDynamicArguments_loop dynamicArgs storage result.
Proof.
  intros Hagree. revert result.
  induction dynamicArgs as [|key rest IH]; intros result; [done|].
  rewrite !parseDynamicArguments_loop_step, (resolveToken_agree _ _ _ Hagree).
  destruct (resolveToken storage key); [apply IH | done].
Qed.

(** C4: a token with the [strip_] marker resolves to the token without the
    marker and a token that starts with [-] to itself, whatever the store
    holds; any other token resolves to the value stored under it.  When
    every token resolves, the result lists the resolved values in the order
    of the tokens; otherwise the first token that does not resolve is named
    in the error and the result is nil.  The store is read at no key that
    carries a marker: stores that agree on the other keys give the same
    result. *)
Theorem parseDynamicArguments_resolves (dynamicArgs : list string)
    (storage : teststorage.SafeMap) :
  (∀ resolved,
     Forall2 (fun key r => resolveToken storage key = Some r) dynamicArgs resolved →
     parseDynamicArguments dynamicArgs storage = (resolved, None))
  ∧ (∀ before key after,
       dynamicArgs = before ++ key :: after →
       (∀ k, k ∈ before → is_Some (resolveToken storage k)) →
       resolveToken storage key = None →
       parseDynamicArguments dynamicArgs storage
       = ([], Some (errorString ("failed to obtain value of key " +:+ key))))
  ∧ (∀ storage',
       (∀ k, prefixedKey k = false →
             teststorage.Get k storage' = teststorage.Get k storage) →
       parseDynamicArguments dynamicArgs storage'
       = parseDynamicArguments dynamicArgs storage)
  ∧ (∀ rest, resolveToken storage ("strip_" +:+ rest) = Some rest)
  ∧ (∀ key, strings.HasPrefix key "-" = true → resolveToken storage key = Some key)
  ∧ (∀ key, prefixedKey key = false →
            resolveToken storage key = teststorage.db storage !! key).
Proof.
  unfold parseDynamicArguments.
  split; [|split; [|split; [|split; [|split]]]].
  - intros resolved Hall.
    by rewrite (parseDynamicArguments_loop_ok _ _ [] resolved Hall).
  - intros before key after -> Hbefore Hkey.
    by apply parseDynamicArguments_loop_missing.
  - intros storage' Hagree. by apply parseDynamicArguments_loop_agree.
  - apply resolveToken_strip.
  - apply resolveToken_flag.
  - apply resolveToken_lookup.
Qed.

(** The two cases of [Test_parseDynamicArguments]. *)
Example parseDynamicArguments_test_cases :
  let safemap := teststorage.Set_ "akey" "avalue" teststorage.NewSafeMap in
  parseDynamicArguments ["akey"; "strip_stripped_key"] safemap
  = (["avalue"; "stripped_key"], None)
  ∧ parseDynamicArguments ["unexisting key"] safemap
    = ([], Some (errorString "failed to obtain value of key unexisting key")).
Proof. split; vm_compute; reflexivity. Qed.

(** ** [redactPasswordFlag] *)

(** The two cases of [Test_redactPasswordFlag]. *)
Example redactPasswordFlag_test_cases :
  redactPasswordFlag
    "ecl --host http://somehost --user admin --pass MySuperSecretPassword platform info"
  = "ecl --host http://somehost --user admin --pass [REDACTED] platform info"
  ∧ redactPasswordFlag
      "ecl --host http://somehost --user admin --pass=MySuperSecretPassword platform info"
    = "ecl --host http://somehost --user admin --pass [REDACTED] platform info".
Proof. split; vm_compute; reflexivity. Qed.

(** The pattern matches only where the text starts with [--pas]. *)
Lemma matchLen_no_prefix (s : string) :
  strings.HasPrefix s "--pas" = false → redact.matchLen redact.passPattern s = None.
Proof.
  intros Hp. unfold redact.matchLen, redact.passPattern. cbn [redact.rematch].
  by rewrite (CutPrefix_None _ _ Hp).
Qed.

(** A command line without [--pas] is left as it is. *)
Lemma ReplaceAllString_unchanged (s repl : string) :
  strings.Contains s "--pas" = false →
  redact.ReplaceAllString redact.passPattern s repl 0 = s.
Proof.
  induction s as [|c s IH]; [done|]. intros Hc.
  cbn [strings.Contains] in Hc. apply orb_false_iff in Hc as [Hp Hc].
  cbn [redact.ReplaceAllString]. rewrite (matchLen_no_prefix _ Hp).
  by rewrite (IH Hc).
Qed.

(** The scan resumes after the bytes of a match. *)
Lemma ReplaceAllString_skip (r : redact.re) (m rest repl : string) :
  redact.ReplaceAllString r (m +:+ rest) repl (String.length m)
  = redact.ReplaceAllString r rest repl 0.
Proof.
  induction m as [|c m IH]; cbn [String.length].
  - rewrite append_nil_l. by destruct rest.
  - rewrite append_cons. cbn [redact.ReplaceAllString]. exact IH.
Qed.

(** The repeated class takes the whole word, up to the next space or the
    end of the text. *)
Lemma plusClass_run {A} (v rest : string) (k : string → option A) (x : A) :
  v ≠ "" → strings.Contains v " " = false →
  (rest = "" ∨ ∃ rest', rest = " " +:+ rest') →
  k rest = Some x →
  redact.plusClass true [" "%char] (v +:+ rest) k = Some x.
Proof.
  intros Hv Hsp Hrest Hk.
  assert (Hstop : redact.plusClass true [" "%char] rest k = None).
  { destruct Hrest as [->|[rest' ->]]; reflexivity. }
  induction v as [|c v IH]; [done|]. clear Hv.
  cbn [strings.Contains] in Hsp. apply orb_false_iff in Hsp as [Hc Hsp].
  rewrite append_cons. cbn [redact.plusClass].
  assert (Hin : redact.inClass true [" "%char] c = true).
  { unfold redact.inClass. cbn [existsb]. rewrite orb_false_r.
    cbn [strings.HasPrefix] in Hc. by destruct (Ascii.eqb c " "). }
  rewrite Hin. destruct v as [|c' v].
  - rewrite append_nil_l, Hstop. exact Hk.
  - rewrite IH; [done | done | exact Hsp].
Qed.

(** No match starts before the flag and runs into it. *)
Lemma matchLen_straddle (pre rest : string) (c : ascii) :
  strings.Contains (String c pre) "--pas" = false →
  strings.HasPrefix (String c pre +:+ "--pas" +:+ rest) "--pas" = false.
Proof.
  intros Hc. cbn [strings.Contains] in Hc. apply orb_false_iff in Hc as [Hp _].
  destruct pre as [|c2 [|c3 [|c4 [|c5 pre]]]];
    repeat (rewrite ?append_cons, ?append_nil_l);
    change ("--pas" +:+ rest) with (String "-" (String "-" (String "p" (String "a" (String "s" rest)))));
    cbn [strings.HasPrefix] in Hp |- *;
    repeat (match goal with
            | |- context [Ascii.eqb ?a ?b] => destruct (Ascii.eqb_spec a b); try subst; try done
            | H : context [Ascii.eqb ?a ?b] |- _ => destruct (Ascii.eqb_spec a b); try subst; try done
            end).
Qed.

(** At a [--pass] flag the match is the flag, the separator and the word. *)
Lemma matchLen_flag (sep : ascii) (v rest : string) :
  sep = " "%char ∨ sep = "="%char →
  v ≠ "" → strings.Contains v " " = false →
  (rest = "" ∨ ∃ rest', rest = " " +:+ rest') →
  redact.matchLen redact.passPattern ("--pass" +:+ String sep (v +:+ rest))
  = Some (S (6 + String.length v)).
Proof.
  intros Hsep Hv Hsp Hrest. unfold redact.matchLen, redact.passPattern.
  change ("--pass" +:+ String sep (v +:+ rest))
    with ("--pas" +:+ "s" +:+ String sep (v +:+ rest)).
  cbn [redact.rematch].
  rewrite (proj2 (CutPrefix_spec _ "--pas" _) eq_refl).
  rewrite (proj2 (CutPrefix_spec _ "s" _) eq_refl).
  assert (Hin : redact.inClass false [" "%char; "="%char] sep = true)
    by (destruct Hsep as [->| ->]; reflexivity).
  rewrite Hin.
  rewrite (plusClass_run v rest _ (S (6 + String.length v)) Hv Hsp Hrest);
    [done|].
  f_equal. rewrite !length_append. cbn [String.length]. rewrite length_append. lia.
Qed.

(** X14: the first [--pass] flag of a command line, separated from its value
    by a space or an equals sign, is rendered as [--pass [REDACTED]]; the
    text before it is kept and the text after it redacted in turn. *)
Lemma redactPasswordFlag_redacts_pass (pre v rest : string) (sep : ascii) :
  strings.Contains pre "--pas" = false →
  sep = " "%char ∨ sep = "="%char →
  v ≠ "" → strings.Contains v " " = false →
  (rest = "" ∨ ∃ rest', rest = " " +:+ rest') →
  redactPasswordFlag (pre +:+ "--pass" +:+ String sep (v +:+ rest))
  = pre +:+ "--pass [REDACTED]" +:+ redactPasswordFlag rest.
Proof.
  intros Hpre Hsep Hv Hsp Hrest. unfold redactPasswordFlag.
  induction pre as [|c pre IH].
  - rewrite !append_nil_l.
    pose proof (matchLen_flag sep v rest Hsep Hv Hsp Hrest) as Hm.
    change ("--pass" +:+ String sep (v +:+ rest))
      with (String "-" ("-pass" +:+ String sep (v +:+ rest))) in Hm |- *.
    cbn [redact.ReplaceAllString]. rewrite Hm. f_equal.
    change ("-pass" +:+ String sep (v +:+ rest))
      with (("-pass" +:+ String sep v) +:+ rest).
    replace (6 + String.length v) with (String.length ("-pass" +:+ String sep v))
      by (rewrite length_append; reflexivity).
    apply ReplaceAllString_skip.
  - rewrite append_cons. cbn [redact.ReplaceAllString].
    rewrite matchLen_no_prefix.
    + rewrite IH; [done|].
      cbn [strings.Contains] in Hpre. by apply orb_false_iff in Hpre as [_ ?].
    + rewrite <- append_cons.
      change ("--pass" +:+ String sep (v +:+ rest))
        with ("--pas" +:+ "s" +:+ String sep (v +:+ rest)).
      by apply matchLen_straddle.
Qed.

(** C8, as the code has it: the [?] of the pattern makes the last letter of
    the flag optional, so a command line without any [--pass] flag is
    rewritten all the same: [--pas] and the word after it become
    [--pass [REDACTED]]. *)
Theorem redactPasswordFlag_rewrites_other_flag :
  strings.Contains "ecl --pas 3 --user admin" "--pass" = false
  ∧ redactPasswordFlag "ecl --pas 3 --user admin"
    = "ecl --pass [REDACTED] --user admin".
Proof. split; vm_compute; reflexivity. Qed.

(** ** [FindBinaryPath] *)

Lemma node_forall_ind (P : filepath.node → Prop) :
  P filepath.RegularFile →
  (∀ entries, Forall (fun e => P e.2) entries → P (filepath.Directory entries)) →
  ∀ n, P n.
Proof.
  intros HFile HDir. fix IH 1. intros [|entries]; [exact HFile|].
  apply HDir. induction entries as [|[name child] entries IHentries].
  - constructor.
  - constructor; [exact (IH child) | exact IHentries].
Qed.

Section NoBinary.

Variable binary : string.

Lemma hasFile_Dir_false (name : string) (entries : list (string * filepath.node)) :
  hasFile binary name (filepath.Directory entries) = false →
  ∀ e, e ∈ entries → hasFile binary e.1 e.2 = false.
Proof.
  cbn [hasFile]. induction entries as [|[name' child] entries IH]; intros Hany e He.
  - by apply elem_of_nil in He.
  - apply orb_false_iff in Hany as [Hchild Hrest].
    apply elem_of_cons in He as [->|He]; [exact Hchild | by apply IH].
Qed.

(** Walking a tree without the binary leaves [binaryPath] as it was. *)
Lemma walk_no_match (p : list string) (n : filepath.node) :
  ∀ (path : list string) (name binaryPath : string),
    hasFile binary name n = false →
    filepath.walk (findBinaryWalkFn p binary) path name n binaryPath
    = (binaryPath, None).
Proof.
  induction n as [|entries IH] using node_forall_ind;
    intros path name binaryPath Hno.
  - cbn [filepath.walk]. unfold findBinaryWalkFn.
    cbn [filepath.Name filepath.IsDir]. cbn [hasFile] in Hno. by rewrite Hno.
  - pose proof (hasFile_Dir_false name entries Hno) as Hentries. clear Hno.
    cbn [filepath.walk]. unfold findBinaryWalkFn at 1.
    cbn [filepath.Name filepath.IsDir negb]. rewrite andb_false_r.
    induction entries as [|[name' child] entries IHentries]; [done|].
    apply Forall_cons in IH as [IHchild IHrest].
    pose proof (IHchild (path ++ [name']) name' binaryPath
                  (Hentries (name', child) (list_elem_of_here _ _))) as Hchild.
    cbn [fst snd] in Hchild. rewrite Hchild.
    apply IHentries; [exact IHrest|].
    intros e He. apply Hentries. by apply list_elem_of_further.
Qed.

Lemma last_cons (c : string) (p : list string) (d : string) :
  List.last (c :: p) d = List.last p c.
Proof.
  revert c d. induction p as [|c' p IH]; intros c d; [done|].
  change (List.last (c :: c' :: p) d) with (List.last (c' :: p) d).
  by rewrite (IH c' d), (IH c' c).
Qed.

Lemma lookup_no_file (p : list string) :
  ∀ (n m : filepath.node) (name : string),
    hasFile binary name n = false →
    filepath.lookup n p = Some m →
    hasFile binary (List.last p name) m = false.
Proof.
  induction p as [|c p IH]; intros n m name Hno Hlookup.
  - cbn in Hlookup. by injection Hlookup as <-.
  - cbn [filepath.lookup] in Hlookup. destruct n as [|entries]; [done|].
    destruct (list_find _ entries) as [[i e]|] eqn:Hfind; [|done].
    apply list_find_Some in Hfind as (Hi & Hname & _).
    rewrite last_cons. rewrite <- Hname.
    apply (IH e.2 m e.1); [|exact Hlookup].
    apply (hasFile_Dir_false name entries Hno).
    by apply list_elem_of_lookup_2 in Hi.
Qed.

Lemma lookup_parent (p : list string) :
  ∀ n, is_Some (filepath.lookup n p) →
       is_Some (filepath.lookup n (filepath.Dir p)).
Proof.
  unfold filepath.Dir. induction p as [|c p IH]; intros n Hsome; [done|].
  destruct p as [|c' p]; [by eexists|].
  change (removelast (c :: c' :: p)) with (c :: removelast (c' :: p)).
  cbn [filepath.lookup] in Hsome |- *. destruct n as [|entries]; [done|].
  destruct (list_find _ entries) as [[i e]|]; [|done].
  by apply IH.
Qed.

(** C3, as the code has it: without a file of that name anywhere, every
    walk finds nothing and the function calls itself on the parent, at the
    root on the root again; whatever depth of recursion it is given, it has
    not returned, with a not-found error or otherwise. *)
Theorem FindBinaryPath_no_match_never_returns (fuel : nat) (fs : filepath.node)
    (p : list string) :
  hasFile binary "/" fs = false →
  is_Some (filepath.lookup fs p) →
  FindBinaryPath fuel fs p binary = OutOfFuel.
Proof.
  intros Hno. revert p. induction fuel as [|fuel IH]; intros p Hp; [done|].
  cbn [FindBinaryPath]. destruct Hp as [n Hn]. rewrite Hn.
  unfold filepath.Walk.
  rewrite (walk_no_match p n p (filepath.Base p) ""
             (lookup_no_file p fs n "/" Hno Hn)).
  cbn [String.eqb].
  rewrite (IH (filepath.Dir p)); [done|].
  apply lookup_parent. by exists n.
Qed.

End NoBinary.

Lemma FindBinaryPath_no_match_never_returns_witness :
  hasFile "ecl" "/" noBinaryExample = false
  ∧ is_Some (filepath.lookup noBinaryExample ["home"; "project"])
  ∧ FindBinaryPath 1000 noBinaryExample ["home"; "project"] "ecl" = OutOfFuel.
Proof.
  assert (Hno : hasFile "ecl" "/" noBinaryExample = false) by reflexivity.
  assert (Hp : is_Some (filepath.lookup noBinaryExample ["home"; "project"]))
    by (eexists; reflexivity).
  split; [exact Hno|]. split; [exact Hp|].
  exact (FindBinaryPath_no_match_never_returns "ecl" 1000 noBinaryExample
           ["home"; "project"] Hno Hp).
Defined.

(** The case of [TestFindEclPath]: from [pkg/engine] the binary is found
    under the parent directory. *)
Example FindBinaryPath_test_case :
  FindBinaryPath 2 findEclExample ["pkg"; "engine"] "aweirdbinaryname"
  = Returned ("../apath/aweirdbinaryname", None).
Proof. vm_compute. reflexivity. Qed.

(** ** [runCommand] *)

(** C9 fails as stated: with lines for the standard input, a command that
    does not start and no error wanted, [runCommand] logs the failure and
    returns; the test goroutine is not ended, and [executeTestCase] goes on
    to the assertions, whose failure it reports next, and to the callbacks,
    which write to the store. *)
Lemma runCommand_start_failure_is_not_fatal :
  let started :=
    runCommand failingCommand testing.new "ecl" 3 ["login"] ["admin"] false in
  let finished :=
    @executeTestCase literalRegexp plainMultierror failingCommand noBinaryExample
      [] 0 testing.new 3 interactiveExample teststorage.NewSafeMap in
  started.2 = Returned ("", "", Some startError)
  ∧ started.2 ≠ Exited
  ∧ @Ensure literalRegexp (Assert interactiveExample) "" "" (Some startError)
      teststorage.NewSafeMap "ecl login"
    = Returned (Some (PrefixedError "assertion"
                        (joinError [PrefixedError "must find"
                                      (joinError [wantedMissMsg "" "welcome"])])))
  ∧ finished.2 = Returned ()
  ∧ length (testing.output finished.1.1) = 2
  ∧ teststorage.db finished.1.2 !! "session" = Some "".
Proof.
  cbv zeta. split; [reflexivity|]. split; [discriminate|].
  split; [reflexivity|]. split; [reflexivity|]. split; [reflexivity|].
  vm_compute. reflexivity.
Qed.

Section StartFailure.

Context `{RegexpPkg} `{MultierrorPkg}.
Variable Command : string → list string → exec.Cmd.
Variable fs : filepath.node.
Variable cwd : list string.

(** C9, amended: with lines for the standard input, a command that does not
    start and no error wanted, [runCommand] marks the test as failed, logs
    one entry with the command, its redacted arguments, the error, the flag
    and the empty standard error, and returns the two buffers, empty, with
    the error of [Start].  The case is not aborted: [executeTestCase] calls
    [Ensure] on these buffers and this error, then the callbacks, which
    leave their values in the store, and logs the report when either gave
    an error; a panic of [Ensure] is the panic of the case. *)
Theorem runCommand_start_failure_reported (fuel : nat) (t : testing.T)
    (testN : nat) (tt : Test) (storage : teststorage.SafeMap)
    (dynamicArgs args : list string) (binary : string) (e : error) :
  parseDynamicArguments (DynamicArgs (Test_Args tt)) storage = (dynamicArgs, None) →
  args = (Config (Test_Args tt) ++ Args_Args (Test_Args tt)) ++ dynamicArgs →
  Binary tt ≠ "" →
  (if FindBinary tt then FindBinaryPath fuel fs cwd (Binary tt)
   else Returned (Binary tt, None)) = Returned (binary, None) →
  Interactive (Test_Args tt) ≠ [] →
  WantErr (Assert tt) = false →
  exec.StdinPipe (Command binary args) = None →
  exec.Start (Command binary args) = Some e →
  let reported :=
    {| testing.failed := true;
       testing.output :=
         testing.output t
         ++ [testTag testN +:+ ": Command " +:+ binary +:+ " "
             +:+ redactPasswordFlag (strings.Join args " ")
             +:+ " error = " +:+ Error e
             +:+ ", wantErr = false, stderr = "] |} in
  runCommand Command t binary testN args (Interactive (Test_Args tt)) false
  = (reported, Returned ("", "", Some e))
  ∧ (∀ aerr storage' cerr,
       Ensure (Assert tt) "" "" (Some e) storage
         (redactPasswordFlag (strings.Join (binary :: args) " "))
       = Returned aerr →
       TestCallback_Run (Callbacks tt) "" storage = (storage', cerr) →
       executeTestCase Command fs cwd fuel t testN tt storage
       = (match appendErr (appendErr [] aerr) cerr with
          | [] => reported
          | _ :: _ =>
              testing.Errorf
                (PrefixedText (testTag testN) (appendErr (appendErr [] aerr) cerr))
                reported
          end,
          storage', Returned ()))
  ∧ (Ensure (Assert tt) "" "" (Some e) storage
       (redactPasswordFlag (strings.Join (binary :: args) " "))
     = Panicked →
     executeTestCase Command fs cwd fuel t testN tt storage
     = (reported, storage, Panicked)).
Proof.
  intros Hargs -> Hbinary Hfound Hinter Hwant Hpipe Hstart reported.
  set (args := (Config (Test_Args tt) ++ Args_Args (Test_Args tt)) ++ dynamicArgs)
    in *.
  assert (Hrun : runCommand Command t binary testN args
                   (Interactive (Test_Args tt)) false
                 = (reported, Returned ("", "", Some e))).
  { unfold runCommand. cbv zeta.
    destruct (Interactive (Test_Args tt)) as [|line lines]; [done|].
    cbn [length Nat.eqb]. by rewrite Hpipe, Hstart. }
  assert (Hexec : executeTestCase Command fs cwd fuel t testN tt storage
            = judge reported testN tt storage binary args "" "" (Some e)).
  { unfold executeTestCase. rewrite Hargs.
    apply String.eqb_neq in Hbinary. rewrite Hbinary. cbv zeta.
    fold args. rewrite Hfound, Hwant. by rewrite Hrun. }
  split; [exact Hrun|]. split.
  - intros aerr storage' cerr Hensure Hcallbacks.
    rewrite Hexec. unfold judge. rewrite Hensure, Hcallbacks. cbv zeta.
    by destruct (appendErr (appendErr [] aerr) cerr).
  - intros Hensure. rewrite Hexec. unfold judge. by rewrite Hensure.
Qed.

End StartFailure.

Lemma runCommand_start_failure_reported_witness :
  parseDynamicArguments (DynamicArgs (Test_Args interactiveExample))
    teststorage.NewSafeMap = ([], None)
  ∧ Binary interactiveExample ≠ ""
  ∧ (if FindBinary interactiveExample
     then FindBinaryPath 0 noBinaryExample [] (Binary interactiveExample)
     else Returned (Binary interactiveExample, None)) = Returned ("ecl", None)
  ∧ Interactive (Test_Args interactiveExample) ≠ []
  ∧ WantErr (Assert interactiveExample) = false
  ∧ exec.StdinPipe (failingCommand "ecl" ["login"]) = None
  ∧ exec.Start (failingCommand "ecl" ["login"]) = Some startError
  ∧ runCommand failingCommand testing.new "ecl" 3 ["login"]
      (Interactive (Test_Args interactiveExample)) false
    = ({| testing.failed := true;
          testing.output :=
            [testTag 3 +:+ ": Command ecl login error = "
             +:+ "exec: no such file or directory"
             +:+ ", wantErr = false, stderr = "] |},
       Returned ("", "", Some startError))
  ∧ length
      (testing.output
         (@executeTestCase literalRegexp plainMultierror failingCommand
            noBinaryExample [] 0 testing.new 3 interactiveExample
            teststorage.NewSafeMap).1.1) = 2.
Proof.
  assert (Hbinary : Binary interactiveExample ≠ "") by discriminate.
  assert (Hinter : Interactive (Test_Args interactiveExample) ≠ []) by discriminate.
  pose proof (@runCommand_start_failure_reported literalRegexp plainMultierror
                failingCommand noBinaryExample [] 0 testing.new 3
                interactiveExample teststorage.NewSafeMap [] ["login"] "ecl"
                startError
                eq_refl eq_refl Hbinary eq_refl Hinter eq_refl eq_refl eq_refl)
    as [Hrun [Hcase _]].
  split; [reflexivity|]. split; [exact Hbinary|]. split; [reflexivity|].
  split; [exact Hinter|]. split; [reflexivity|]. split; [reflexivity|].
  split; [reflexivity|]. split; [exact Hrun|].
  rewrite (Hcase _ _ _ eq_refl eq_refl). reflexivity.
Defined.

(** * Further properties *)

(** ** The store *)

(** X1: a value written with [Set] is the one [Get] returns for that key,
    the other keys keep what they had, and a new store holds nothing. *)
Theorem SafeMap_Get_Set (m : teststorage.SafeMap) (k k' v : string) :
  teststorage.Get k (teststorage.Set_ k v m) = Some v
  ∧ (k' ≠ k → teststorage.Get k' (teststorage.Set_ k v m) = teststorage.Get k' m)
  ∧ teststorage.Get k teststorage.NewSafeMap = None.
Proof.
  unfold teststorage.Get, teststorage.Set_. cbn [teststorage.db].
  split; [apply lookup_insert_eq|]. split; [|apply lookup_empty].
  intros Hne. by apply lookup_insert_ne.
Qed.

(** X2: the last write to a key wins, and writes to different keys can be
    made in either order. *)
Theorem SafeMap_Set_overwrite_commute (m : teststorage.SafeMap)
    (k1 k2 v1 v2 : string) :
  teststorage.Set_ k1 v2 (teststorage.Set_ k1 v1 m) = teststorage.Set_ k1 v2 m
  ∧ (k1 ≠ k2 →
     teststorage.Set_ k1 v1 (teststorage.Set_ k2 v2 m)
     = teststorage.Set_ k2 v2 (teststorage.Set_ k1 v1 m)).
Proof.
  unfold teststorage.Set_. cbn [teststorage.db]. split.
  - by rewrite insert_insert_eq.
  - intros Hne. f_equal. by apply insert_insert_ne.
Qed.

Lemma setAll_cons (k v : string) (entries : list (string * string))
    (m : teststorage.SafeMap) :
  setAll ((k, v) :: entries) m = setAll entries (teststorage.Set_ k v m).
Proof. reflexivity. Qed.

Lemma Get_Set_eq (m : teststorage.SafeMap) (k v : string) :
  teststorage.Get k (teststorage.Set_ k v m) = Some v.
Proof. unfold teststorage.Get, teststorage.Set_. apply lookup_insert_eq. Qed.

Lemma Get_Set_ne (m : teststorage.SafeMap) (k k' v : string) :
  k' ≠ k → teststorage.Get k' (teststorage.Set_ k v m) = teststorage.Get k' m.
Proof.
  intros Hne. unfold teststorage.Get, teststorage.Set_. by apply lookup_insert_ne.
Qed.

Lemma setAll_Get_other (entries : list (string * string)) (m : teststorage.SafeMap)
    (k : string) :
  k ∉ entries.*1 → teststorage.Get k (setAll entries m) = teststorage.Get k m.
Proof.
  revert m. induction entries as [|[k' v'] entries IH]; intros m Hk; [done|].
  rewrite setAll_cons.
  rewrite fmap_cons, not_elem_of_cons in Hk. destruct Hk as [Hne Hk].
  rewrite IH by done. by apply Get_Set_ne.
Qed.

(** X3: after a sequence of writes to keys that are all different, every
    key reads back the value written to it: no write is lost. *)
Theorem SafeMap_distinct_writes_all_read (entries : list (string * string))
    (m : teststorage.SafeMap) (k v : string) :
  NoDup entries.*1 → (k, v) ∈ entries →
  teststorage.Get k (setAll entries m) = Some v.
Proof.
  revert m. induction entries as [|[k' v'] entries IH]; intros m Hnd Hin.
  - by apply elem_of_nil in Hin.
  - rewrite fmap_cons in Hnd. apply NoDup_cons in Hnd as [Hfresh Hnd].
    rewrite setAll_cons.
    apply elem_of_cons in Hin as [[= -> ->]|Hin].
    + rewrite setAll_Get_other by done. apply Get_Set_eq.
    + by apply IH.
Qed.

Lemma SafeMap_distinct_writes_all_read_witness :
  NoDup [("stored_message", "You Know, for Cloud."); ("stored_href", "app")].*1
  ∧ ("stored_href", "app")
      ∈ [("stored_message", "You Know, for Cloud."); ("stored_href", "app")]
  ∧ teststorage.Get "stored_href"
      (setAll [("stored_message", "You Know, for Cloud."); ("stored_href", "app")]
         teststorage.NewSafeMap)
    = Some "app".
Proof.
  assert (Hnd : NoDup [("stored_message", "You Know, for Cloud.");
                       ("stored_href", "app")].*1).
  { apply NoDup_cons. split.
    - intros Hin. apply list_elem_of_singleton in Hin. discriminate Hin.
    - apply NoDup_singleton. }
  assert (Hin : ("stored_href", "app")
                  ∈ [("stored_message", "You Know, for Cloud.");
                     ("stored_href", "app")])
    by apply list_elem_of_further, list_elem_of_here.
  split; [exact Hnd|]. split; [exact Hin|].
  exact (SafeMap_distinct_writes_all_read _ teststorage.NewSafeMap
           "stored_href" "app" Hnd Hin).
Defined.

(** ** The other assertions *)

Lemma accumulate_nil {A} (miss : A → bool) (f : A → error) (l : list A) :
  List.map f (List.filter miss l) = [] ↔ ∀ x, x ∈ l → miss x = false.
Proof.
  rewrite <- filter_nil_iff. split; [apply map_eq_nil | by intros ->].
Qed.

(** X4: the must-errors check adds one error for every expected string that
    the standard error does not contain, in order, and passes exactly when
    every expected string is a substring of the standard error. *)
Theorem assertErrors_missing (stderr : string) (errrs : list string) :
  assertErrors_errs stderr errrs
  = List.map (errorsMissMsg stderr)
      (List.filter (fun want => negb (strings.Contains stderr want)) errrs)
  ∧ (assertErrors stderr errrs = None ↔
       ∀ want, want ∈ errrs → ∃ before after, stderr = before +:+ want +:+ after).
Proof.
  assert (Heq : assertErrors_errs stderr errrs
    = List.map (errorsMissMsg stderr)
        (List.filter (fun want => negb (strings.Contains stderr want)) errrs))
    by apply (foldl_accumulate (fun want => negb (strings.Contains stderr want))).
  split; [exact Heq|].
  unfold assertErrors. cbv zeta. rewrite prefixed_join_None, Heq, accumulate_nil.
  split; intros Hall want Hwant; specialize (Hall want Hwant).
  - apply negb_false_iff in Hall. by apply Contains_spec.
  - apply negb_false_iff. by apply Contains_spec.
Qed.

Lemma assertMustNot_errs_eq (out stderr : string) (not : Assertion) :
  assertMustNot_errs out stderr not
  = (if Strict not
     then List.map (notStrictMsg out) (List.filter (String.eqb out) (Output not))
     else List.map (notOutputMsg out)
            (List.filter (strings.Contains out) (Output not)))
    ++ List.map (notErrorsMsg stderr)
         (List.filter (strings.Contains stderr) (Errors not)).
Proof.
  unfold assertMustNot_errs. cbv zeta.
  rewrite (foldl_accumulate (strings.Contains stderr) (notErrorsMsg stderr)).
  f_equal. destruct (Strict not); cbn [andb negb].
  - apply (foldl_accumulate (String.eqb out) (notStrictMsg out)).
  - apply (foldl_accumulate (strings.Contains out) (notOutputMsg out)).
Qed.

Lemma assertMustNot_None (out stderr : string) (not : Assertion) :
  assertMustNot out stderr not = None ↔ mustNot out stderr not.
Proof.
  unfold assertMustNot, mustNot, substringOf. cbv zeta.
  rewrite prefixed_join_None, assertMustNot_errs_eq.
  split.
  - intros [Hout Herr]%app_eq_nil. split.
    + destruct (Strict not); intros m Hm.
      * pose proof (proj1 (accumulate_nil _ _ _) Hout m Hm) as Hf.
        by apply String.eqb_neq.
      * pose proof (proj1 (accumulate_nil _ _ _) Hout m Hm) as Hf.
        rewrite <- Contains_spec. congruence.
    + intros m Hm.
      pose proof (proj1 (accumulate_nil _ _ _) Herr m Hm) as Hf.
      rewrite <- Contains_spec. congruence.
  - intros [Hout Herr].
    assert (H1 : List.map (notErrorsMsg stderr)
                   (List.filter (strings.Contains stderr) (Errors not)) = []).
    { apply accumulate_nil. intros m Hm. specialize (Herr m Hm).
      rewrite <- Contains_spec in Herr. by destruct (strings.Contains stderr m). }
    rewrite H1, app_nil_r. destruct (Strict not); apply accumulate_nil; intros m Hm;
      specialize (Hout m Hm).
    + by apply String.eqb_neq.
    + rewrite <- Contains_spec in Hout. by destruct (strings.Contains out m).
Qed.

(** X5: the must-not check passes exactly when no string of [Not.Output]
    is the whole standard output (strict) or a part of it (otherwise), and
    no string of [Not.Errors] is a part of the standard error; [Strict]
    does not change the check of the standard error, and in strict mode a
    forbidden string that is only a part of the output is let through. *)
Theorem assertMustNot_passes_iff (out stderr : string) (not : Assertion) :
  assertMustNot out stderr not = None ↔
  (∀ m, m ∈ Output not →
        if Strict not then out ≠ m
        else ¬ ∃ before after, out = before +:+ m +:+ after)
  ∧ (∀ m, m ∈ Errors not → ¬ ∃ before after, stderr = before +:+ m +:+ after).
Proof.
  rewrite assertMustNot_None. unfold mustNot, substringOf.
  split; intros [Hout Herr]; (split; [exact Hout | exact Herr]).
Qed.

(** X6: an empty string in [Not.Output] without [Strict] fails the check
    on every output, since every string contains the empty one. *)
Theorem assertMustNot_empty_string (out stderr : string) (not : Assertion) :
  Strict not = false → "" ∈ Output not →
  assertMustNot out stderr not ≠ None.
Proof.
  intros Hstrict Hin Hpass. apply assertMustNot_None in Hpass as [Hout _].
  specialize (Hout "" Hin). rewrite Hstrict in Hout.
  apply Hout. by exists "", out.
Qed.

Lemma assertMustNot_empty_string_witness :
  Strict (Not knownFailureExample) = false
  ∧ "" ∈ Output (Not knownFailureExample)
  ∧ assertMustNot "any output" "" (Not knownFailureExample) ≠ None.
Proof.
  assert (Hin : "" ∈ Output (Not knownFailureExample)) by apply list_elem_of_here.
  split; [reflexivity|]. split; [exact Hin|].
  exact (assertMustNot_empty_string "any output" "" (Not knownFailureExample)
           eq_refl Hin).
Defined.

Section MoreAssertions.

Context `{RegexpPkg}.

Lemma assertPattern_errs_nil (out : string) (patterns : list string)
    (errs : list error) :
  (∀ pattern, pattern ∈ patterns → is_Some (Compile pattern)) →
  ∃ errs', assertPattern_errs out patterns errs = Returned (errs ++ errs')
           ∧ (errs' = [] ↔
              ∀ pattern re, pattern ∈ patterns → Compile pattern = Some re →
                            is_Some (FindStringIndex re out)).
Proof.
  revert errs. induction patterns as [|p patterns IH]; intros errs Hall.
  - exists []. rewrite app_nil_r. split; [done|]. split; [|done].
    intros _ pattern re Hin. by apply elem_of_nil in Hin.
  - cbn [assertPattern_errs].
    destruct (Hall p (list_elem_of_here _ _)) as [re Hre]. rewrite Hre.
    assert (Hrest : ∀ pattern, pattern ∈ patterns → is_Some (Compile pattern))
      by (intros q Hq; apply Hall; by apply list_elem_of_further).
    destruct (FindStringIndex re out) as [loc|] eqn:Hfind.
    + destruct (IH errs Hrest) as (errs' & Heq & Hnil). exists errs'.
      split; [done|]. rewrite Hnil. split.
      * intros Hm pattern re' [->|Hin]%elem_of_cons Hc; [|by eapply Hm].
        rewrite Hre in Hc. injection Hc as <-. by rewrite Hfind.
      * intros Hm pattern re' Hin. apply Hm. by apply list_elem_of_further.
    + destruct (IH (errs ++ [patternMissMsg out p]) Hrest) as (errs' & Heq & _).
      exists (patternMissMsg out p :: errs'). rewrite Heq.
      split; [by rewrite <- app_assoc|].
      split; [done|]. intros Hm. exfalso.
      destruct (Hm p re (list_elem_of_here _ _) Hre) as [loc Hloc]. congruence.
Qed.

(** X7: on patterns that all compile the pattern check returns, and it
    passes exactly when every pattern has a match in the standard
    output. *)
Theorem assertPattern_compiled_patterns (out : string) (patterns : list string) :
  (∀ pattern, pattern ∈ patterns → is_Some (Compile pattern)) →
  (∃ result, assertPattern out patterns = Returned result)
  ∧ (assertPattern out patterns = Returned None ↔
       ∀ pattern re, pattern ∈ patterns → Compile pattern = Some re →
                     is_Some (FindStringIndex re out)).
Proof.
  intros Hall. unfold assertPattern.
  destruct (assertPattern_errs_nil out patterns [] Hall) as (errs & Heq & Hnil).
  rewrite Heq. cbn [app obind]. split.
  - destruct (0 <? length errs); by eexists.
  - rewrite <- Hnil. destruct errs; cbn; split; done.
Qed.

Lemma assertPattern_compiled_None (out : string) (patterns : list string) :
  (∀ pattern, pattern ∈ patterns → is_Some (Compile pattern)) →
  (∃ result, assertPattern out patterns = Returned result)
  ∧ (assertPattern out patterns = Returned None ↔
       ∀ pattern re, pattern ∈ patterns → Compile pattern = Some re →
                     is_Some (FindStringIndex re out)).
Proof.
  intros Hall. unfold assertPattern.
  destruct (assertPattern_errs_nil out patterns [] Hall) as (errs & Heq & Hnil).
  rewrite Heq. cbn [app obind]. split.
  - destruct (0 <? length errs); by eexists.
  - rewrite <- Hnil. destruct errs; cbn; split; done.
Qed.

Lemma appendErr_nil (errs : list error) (err : option error) :
  appendErr errs err = [] ↔ errs = [] ∧ err = None.
Proof.
  destruct err as [e|]; cbn [appendErr].
  - split; [|by intros [_ ?]]. intros Happ. by apply app_eq_nil in Happ as [_ ?].
  - split; [by intros -> | by intros [-> _]].
Qed.

Lemma assertWanted_mustOutput (out : string) (w : Assertion) :
  assertWanted out w = None ↔ mustOutput out w.
Proof.
  rewrite assertWanted_None. unfold mustOutput, substringOf.
  split; intros Hall want Hwant; specialize (Hall want Hwant);
    destruct (Strict w); try done; by apply Contains_spec.
Qed.

Lemma assertErrors_mustErrors (stderr : string) (w : Assertion) :
  assertErrors stderr (Errors w) = None ↔ mustErrors stderr w.
Proof.
  unfold assertErrors, mustErrors, substringOf. cbv zeta.
  rewrite prefixed_join_None.
  unfold assertErrors_errs.
  rewrite (foldl_accumulate (fun want => negb (strings.Contains stderr want))
             (errorsMissMsg stderr)).
  rewrite app_nil_l, accumulate_nil.
  split; intros Hall want Hwant; specialize (Hall want Hwant).
  - apply negb_false_iff in Hall. by apply Contains_spec.
  - apply negb_false_iff. by apply Contains_spec.
Qed.

Lemma assertDynamic_mustDynamic (out : string) (storage : teststorage.SafeMap)
    (w : Assertion) :
  assertDynamic out (Dynamic w) storage = None ↔ mustDynamic out storage w.
Proof.
  unfold assertDynamic, mustDynamic, substringOf. cbv zeta.
  rewrite prefixed_join_None, assertDynamic_errs_eq, accumulate_nil.
  split; intros Hall key Hkey; specialize (Hall key Hkey).
  - apply negb_false_iff in Hall. rewrite dynamicValue_default in Hall.
    by apply Contains_spec.
  - apply negb_false_iff. rewrite dynamicValue_default. by apply Contains_spec.
Qed.

Lemma Ensure_checks_None (a : Assertions) (stdout stderr : string)
    (err : option error) (storage : teststorage.SafeMap) (args : string) :
  unexpectedErr a err = false →
  knownFailure stderr (CanErrorWithMessage a) = false →
  (∀ pattern, pattern ∈ Pattern (Must a) → is_Some (Compile pattern)) →
  Ensure a stdout stderr err storage args = Returned None ↔
  assertWanted stdout (Must a) = None
  ∧ assertPattern stdout (Pattern (Must a)) = Returned None
  ∧ assertErrors stderr (Errors (Must a)) = None
  ∧ assertDynamic stdout (Dynamic (Must a)) storage = None
  ∧ assertMustNot stdout stderr (Not a) = None.
Proof.
  intros Hun Hknown Hcompile. unfold Ensure. cbv zeta. rewrite Hun, Hknown.
  destruct (proj1 (assertPattern_compiled_None stdout _ Hcompile)) as [perr Hperr].
  rewrite Hperr. cbn [obind].
  set (errs := appendErr _ _).
  assert (Hres : (if 0 <? length errs
                  then Returned (NewPrefixedError "assertion" (errorsJoin errs))
                  else Returned None) = Returned None ↔ errs = []).
  { destruct errs; cbn; split; done. }
  rewrite Hres. unfold errs. rewrite !appendErr_nil. split.
  - intros (((((_ & Hw) & Hp) & He) & Hd) & Hn). by rewrite Hw, Hp, He, Hd, Hn.
  - intros (Hw & Hp & He & Hd & Hn). injection Hp as ->. by rewrite Hw, He, Hd, Hn.
Qed.

(** X8: with patterns that compile, a case passes exactly when the
    error-expectation check does not fail it and either a known failure
    message is in the standard error or all of the must-output, pattern,
    must-errors, must-dynamic and must-not rules hold. *)
Theorem Ensure_passes_iff (a : Assertions) (stdout stderr : string)
    (err : option error) (storage : teststorage.SafeMap) (args : string) :
  (∀ pattern, pattern ∈ Pattern (Must a) → is_Some (Compile pattern)) →
  Ensure a stdout stderr err storage args = Returned None ↔
  ¬ (¬ (is_Some err ↔ WantErr a = true)
     ∧ CanError a = false ∧ CanErrorWithMessage a = [])
  ∧ ((∃ message, message ∈ CanErrorWithMessage a ∧ substringOf message stderr)
     ∨ (mustOutput stdout (Must a)
        ∧ mustPattern stdout (Must a)
        ∧ mustErrors stderr (Must a)
        ∧ mustDynamic stdout storage (Must a)
        ∧ mustNot stdout stderr (Not a))).
Proof.
  intros Hcompile. rewrite <- unexpectedErr_true.
  destruct (unexpectedErr a err) eqn:Hun.
  - split; [|by intros [? _]]. unfold Ensure. cbv zeta. by rewrite Hun.
  - destruct (knownFailure stderr (CanErrorWithMessage a)) eqn:Hknown.
    + split.
      * intros _. split; [done|]. left.
        apply knownFailure_true in Hknown as (message & Hin & Hc).
        exists message. split; [done | by apply Contains_spec].
      * intros _. unfold Ensure. cbv zeta. by rewrite Hun, Hknown.
    + rewrite (Ensure_checks_None a stdout stderr err storage args Hun Hknown Hcompile).
      rewrite assertWanted_mustOutput, assertMustNot_None.
      rewrite (proj2 (assertPattern_compiled_None stdout _ Hcompile)).
      rewrite assertErrors_mustErrors, assertDynamic_mustDynamic.
      fold (mustPattern stdout (Must a)). split.
      * intros Hchecks. split; [done|]. by right.
      * intros [_ [(message & Hin & Hsub)|Hchecks]]; [|done].
        exfalso. assert (knownFailure stderr (CanErrorWithMessage a) = true);
          [|congruence].
        apply knownFailure_true. exists message. split; [done|].
        by apply Contains_spec.
Qed.

(** X9: once [CanError] is set or [CanErrorWithMessage] is not empty, the
    exit error plays no part in the verdict, whether or not one of the
    messages is found: [Ensure] gives the same result for any two
    errors. *)
Theorem Ensure_ignores_error_when_tolerated (a : Assertions) (stdout stderr : string)
    (err err' : option error) (storage : teststorage.SafeMap) (args : string) :
  CanError a = true ∨ CanErrorWithMessage a ≠ [] →
  Ensure a stdout stderr err storage args = Ensure a stdout stderr err' storage args.
Proof.
  intros Htol.
  assert (Hun : ∀ e, unexpectedErr a e = false).
  { intros e. destruct (unexpectedErr a e) eqn:He; [|done].
    apply unexpectedErr_true in He as (_ & Hcan & Hnil).
    destruct Htol as [Ht|Ht]; congruence. }
  unfold Ensure. cbv zeta. by rewrite !Hun.
Qed.

End MoreAssertions.

Lemma passingExample_patterns_compile :
  ∀ pattern, pattern ∈ Pattern (Must passingExample) →
             is_Some (@Compile literalRegexp pattern).
Proof.
  intros pattern Hin.
  apply elem_of_cons in Hin as [->|Hin]; [by eexists|].
  apply list_elem_of_singleton in Hin as ->. by eexists.
Defined.

Lemma assertPattern_compiled_patterns_witness :
  (∀ pattern, pattern ∈ Pattern (Must passingExample) →
              is_Some (@Compile literalRegexp pattern))
  ∧ @assertPattern literalRegexp "ready" (Pattern (Must passingExample))
    = Returned None.
Proof.
  split; [exact passingExample_patterns_compile|].
  apply (proj2 (@assertPattern_compiled_patterns literalRegexp "ready"
                  (Pattern (Must passingExample))
                  passingExample_patterns_compile)).
  intros pattern re Hin Hre.
  apply elem_of_cons in Hin as [->|Hin].
  - injection Hre as <-. by eexists.
  - apply list_elem_of_singleton in Hin as ->. injection Hre as <-. by eexists.
Defined.

Lemma Ensure_passes_iff_witness :
  (∀ pattern, pattern ∈ Pattern (Must passingExample) →
              is_Some (@Compile literalRegexp pattern))
  ∧ (@Ensure literalRegexp passingExample "ready" "" None
       teststorage.NewSafeMap "ecl status" = Returned None ↔
     ¬ (¬ (is_Some (@None error) ↔ WantErr passingExample = true)
        ∧ CanError passingExample = false
        ∧ CanErrorWithMessage passingExample = [])
     ∧ ((∃ message, message ∈ CanErrorWithMessage passingExample
                    ∧ substringOf message "")
        ∨ (mustOutput "ready" (Must passingExample)
           ∧ @mustPattern literalRegexp "ready" (Must passingExample)
           ∧ mustErrors "" (Must passingExample)
           ∧ mustDynamic "ready" teststorage.NewSafeMap (Must passingExample)
           ∧ mustNot "ready" "" (Not passingExample)))).
Proof.
  split; [exact passingExample_patterns_compile|].
  exact (@Ensure_passes_iff literalRegexp passingExample "ready" "" None
           teststorage.NewSafeMap "ecl status" passingExample_patterns_compile).
Defined.

Lemma Ensure_ignores_error_when_tolerated_witness :
  (CanError knownFailureExample = true ∨ CanErrorWithMessage knownFailureExample ≠ [])
  ∧ @Ensure literalRegexp knownFailureExample "" "connection refused"
      (Some (errorString "exit status 1")) teststorage.NewSafeMap "ecl"
    = @Ensure literalRegexp knownFailureExample "" "connection refused"
        None teststorage.NewSafeMap "ecl".
Proof.
  assert (Htol : CanError knownFailureExample = true
                 ∨ CanErrorWithMessage knownFailureExample ≠ [])
    by (right; discriminate).
  split; [exact Htol|].
  exact (@Ensure_ignores_error_when_tolerated literalRegexp knownFailureExample
           "" "connection refused" (Some (errorString "exit status 1")) None
           teststorage.NewSafeMap "ecl" Htol).
Defined.

(** ** More on the dynamic arguments *)

Lemma resolveToken_None (storage : teststorage.SafeMap) (key : string) :
  resolveToken storage key = None →
  prefixedKey key = false ∧ teststorage.Get key storage = None.
Proof.
  intros Hnone. destruct (prefixedKey key) eqn:Hp.
  - exfalso. unfold prefixedKey in Hp.
    destruct (strings.HasPrefix key "strip_") eqn:Hstrip.
    + apply HasPrefix_spec in Hstrip as [tail ->].
      by rewrite resolveToken_strip in Hnone.
    + rewrite orb_false_r in Hp. by rewrite resolveToken_flag in Hnone.
  - split; [done|]. by rewrite resolveToken_lookup in Hnone.
Qed.

Lemma parseDynamicArguments_loop_shape (dynamicArgs : list string)
    (storage : teststorage.SafeMap) (result : list string) :
  (∃ resolved,
     parseDynamicArguments_loop dynamicArgs storage result = (result ++ resolved, None)
     ∧ length resolved = length dynamicArgs)
  ∨ (∃ key,
       key ∈ dynamicArgs ∧ prefixedKey key = false
       ∧ teststorage.Get key storage = None
       ∧ parseDynamicArguments_loop dynamicArgs storage result
         = ([], Some (missingKeyMsg key))).
Proof.
  revert result. induction dynamicArgs as [|key rest IH]; intros result.
  - left. exists []. by rewrite app_nil_r.
  - rewrite parseDynamicArguments_loop_step.
    destruct (resolveToken storage key) as [r|] eqn:Hkey.
    + destruct (IH (result ++ [r]))
        as [(resolved & Heq & Hlen)|(k & Hin & Hp & Hg & Heq)]; rewrite Heq.
      * left. exists (r :: resolved). rewrite <- app_assoc. split; [done|].
        cbn [length]. by rewrite Hlen.
      * right. exists k. split; [by apply list_elem_of_further | done].
    + right. exists key. apply resolveToken_None in Hkey as [Hp Hg].
      split; [apply list_elem_of_here | done].
Qed.

(** X10: the resolver gives all or nothing: either as many values as there
    are tokens and no error, or a nil slice and the error naming a token
    of the list that has no marker and no value in the store. *)
Theorem parseDynamicArguments_all_or_nothing (dynamicArgs : list string)
    (storage : teststorage.SafeMap) :
  (∃ resolved,
     parseDynamicArguments dynamicArgs storage = (resolved, None)
     ∧ length resolved = length dynamicArgs)
  ∨ (∃ key,
       key ∈ dynamicArgs ∧ prefixedKey key = false
       ∧ teststorage.Get key storage = None
       ∧ parseDynamicArguments dynamicArgs storage
         = ([], Some (errorString ("failed to obtain value of key " +:+ key)))).
Proof.
  unfold parseDynamicArguments.
  destruct (parseDynamicArguments_loop_shape dynamicArgs storage [])
    as [(resolved & Heq & Hlen)|(key & Hin & Hp & Hg & Heq)].
  - left. by exists resolved.
  - right. by exists key.
Qed.

(** X11: a list made of flags and [strip_] tokens only resolves to the same
    arguments on every store, the empty one included: it never fails. *)
Theorem parseDynamicArguments_markers_only (dynamicArgs : list string) :
  (∀ key, key ∈ dynamicArgs → prefixedKey key = true) →
  ∃ resolved, ∀ storage,
    parseDynamicArguments dynamicArgs storage = (resolved, None).
Proof.
  intros Hall. unfold parseDynamicArguments. generalize (@nil string) as result.
  induction dynamicArgs as [|key rest IH]; intros result.
  - by exists result.
  - assert (Hr : ∃ r, ∀ storage, resolveToken storage key = Some r).
    { pose proof (Hall key (list_elem_of_here _ _)) as Hp. unfold prefixedKey in Hp.
      destruct (strings.HasPrefix key "strip_") eqn:Hstrip.
      - apply HasPrefix_spec in Hstrip as [tail ->]. exists tail.
        intros storage. apply resolveToken_strip.
      - rewrite orb_false_r in Hp. exists key. intros storage.
        by apply resolveToken_flag. }
    destruct Hr as [r Hr].
    destruct (IH (fun k Hk => Hall k (list_elem_of_further _ _ _ Hk)) (result ++ [r]))
      as [resolved Hres].
    exists resolved. intros storage.
    by rewrite parseDynamicArguments_loop_step, Hr.
Qed.

Lemma parseDynamicArguments_markers_only_witness :
  (∀ key, key ∈ ["--format"; "strip_json"] → prefixedKey key = true)
  ∧ ∃ resolved, ∀ storage,
      parseDynamicArguments ["--format"; "strip_json"] storage = (resolved, None).
Proof.
  assert (Hall : ∀ key, key ∈ ["--format"; "strip_json"] → prefixedKey key = true).
  { intros key Hin. apply elem_of_cons in Hin as [->|Hin]; [reflexivity|].
    apply list_elem_of_singleton in Hin as ->. reflexivity. }
  split; [exact Hall|].
  exact (parseDynamicArguments_markers_only ["--format"; "strip_json"] Hall).
Defined.

Lemma parseDynamicArguments_loop_result (dynamicArgs : list string)
    (storage : teststorage.SafeMap) (result : list string) :
  parseDynamicArguments_loop dynamicArgs storage result
  = match parseDynamicArguments_loop dynamicArgs storage [] with
    | (resolved, None) => (result ++ resolved, None)
    | (resolved, Some e) => (resolved, Some e)
    end.
Proof.
  revert result. induction dynamicArgs as [|key rest IH]; intros result.
  - cbn. by rewrite app_nil_r.
  - rewrite !parseDynamicArguments_loop_step.
    destruct (resolveToken storage key) as [r|]; [|done].
    rewrite (IH (result ++ [r])), (IH ([] ++ [r])).
    destruct (parseDynamicArguments_loop rest storage []) as [resolved [e|]];
      [done|]. by rewrite <- app_assoc.
Qed.

Lemma parseDynamicArguments_loop_app (tokens1 tokens2 : list string)
    (storage : teststorage.SafeMap) (result : list string) :
  parseDynamicArguments_loop (tokens1 ++ tokens2) storage result
  = match parseDynamicArguments_loop tokens1 storage result with
    | (resolved, None) => parseDynamicArguments_loop tokens2 storage resolved
    | (resolved, Some e) => (resolved, Some e)
    end.
Proof.
  revert result. induction tokens1 as [|key rest IH]; intros result; [done|].
  cbn [app]. rewrite !parseDynamicArguments_loop_step.
  destruct (resolveToken storage key) as [r|]; [apply IH | done].
Qed.

(** X12: resolving a list in two parts: when the first part resolves, the
    whole list gives its values followed by those of the second part, or
    the error of the second part with a nil slice; the values already
    resolved are dropped. *)
Theorem parseDynamicArguments_app (tokens1 tokens2 resolved1 : list string)
    (storage : teststorage.SafeMap) :
  parseDynamicArguments tokens1 storage = (resolved1, None) →
  parseDynamicArguments (tokens1 ++ tokens2) storage
  = match parseDynamicArguments tokens2 storage with
    | (resolved2, None) => (resolved1 ++ resolved2, None)
    | (_, Some e) => ([], Some e)
    end.
Proof.
  unfold parseDynamicArguments. intros H1.
  rewrite parseDynamicArguments_loop_app, H1, parseDynamicArguments_loop_result.
  destruct (parseDynamicArguments_loop_shape tokens2 storage [])
    as [(resolved & Heq & _)|(key & _ & _ & _ & Heq)]; by rewrite Heq.
Qed.

Lemma parseDynamicArguments_app_witness :
  parseDynamicArguments ["-o"] teststorage.NewSafeMap = (["-o"], None)
  ∧ parseDynamicArguments (["-o"] ++ ["id"]) teststorage.NewSafeMap
    = match parseDynamicArguments ["id"] teststorage.NewSafeMap with
      | (resolved2, None) => (["-o"] ++ resolved2, None)
      | (_, Some e) => ([], Some e)
      end.
Proof.
  split; [reflexivity|].
  exact (parseDynamicArguments_app ["-o"] ["id"] ["-o"] teststorage.NewSafeMap
           eq_refl).
Defined.

(** X13: what a callback stored under a key is what the next case gets for
    that key as a dynamic argument, provided the key carries no marker. *)
Theorem parseDynamicArguments_reads_Set (storage : teststorage.SafeMap)
    (key value : string) :
  prefixedKey key = false →
  parseDynamicArguments [key] (teststorage.Set_ key value storage) = ([value], None).
Proof.
  intros Hp. unfold parseDynamicArguments.
  rewrite parseDynamicArguments_loop_step, resolveToken_lookup by done.
  unfold teststorage.Set_. cbn [teststorage.db]. by rewrite lookup_insert_eq.
Qed.

Lemma parseDynamicArguments_reads_Set_witness :
  prefixedKey "stored_message" = false
  ∧ parseDynamicArguments ["stored_message"]
      (teststorage.Set_ "stored_message" "You Know, for Cloud."
         teststorage.NewSafeMap)
    = (["You Know, for Cloud."], None).
Proof.
  split; [reflexivity|].
  exact (parseDynamicArguments_reads_Set teststorage.NewSafeMap
           "stored_message" "You Know, for Cloud." eq_refl).
Defined.

(** ** More on the redaction *)

Lemma redactPasswordFlag_redacts_pass_witness :
  strings.Contains "ecl --user admin " "--pas" = false
  ∧ ("="%char = " "%char ∨ "="%char = "="%char)
  ∧ "MySuperSecretPassword" ≠ ""
  ∧ strings.Contains "MySuperSecretPassword" " " = false
  ∧ (" platform info" = "" ∨ ∃ rest', " platform info" = " " +:+ rest')
  ∧ redactPasswordFlag
      ("ecl --user admin " +:+ "--pass"
         +:+ String "=" ("MySuperSecretPassword" +:+ " platform info"))
    = "ecl --user admin " +:+ "--pass [REDACTED]"
        +:+ redactPasswordFlag " platform info".
Proof.
  assert (Hsep : "="%char = " "%char ∨ "="%char = "="%char) by (right; reflexivity).
  assert (Hv : "MySuperSecretPassword" ≠ "") by discriminate.
  assert (Hrest : " platform info" = "" ∨ ∃ rest', " platform info" = " " +:+ rest')
    by (right; exists "platform info"; reflexivity).
  split; [reflexivity|]. split; [exact Hsep|]. split; [exact Hv|].
  split; [reflexivity|]. split; [exact Hrest|].
  exact (redactPasswordFlag_redacts_pass "ecl --user admin "
           "MySuperSecretPassword" " platform info" "=" eq_refl Hsep Hv eq_refl Hrest).
Defined.

(** X15: a command line in which [--pas] does not occur is rendered as it
    is. *)
Theorem redactPasswordFlag_unchanged (cmd : string) :
  strings.Contains cmd "--pas" = false → redactPasswordFlag cmd = cmd.
Proof.
  intros Hc. unfold redactPasswordFlag.
  induction cmd as [|c cmd IH]; [done|].
  cbn [strings.Contains] in Hc. apply orb_false_iff in Hc as [Hp Hc].
  cbn [redact.ReplaceAllString]. rewrite (matchLen_no_prefix _ Hp).
  by rewrite (IH Hc).
Qed.

Lemma redactPasswordFlag_unchanged_witness :
  strings.Contains "ecl --host http://somehost --user admin platform info" "--pas"
  = false
  ∧ redactPasswordFlag "ecl --host http://somehost --user admin platform info"
    = "ecl --host http://somehost --user admin platform info".
Proof.
  split; [reflexivity|].
  exact (redactPasswordFlag_unchanged
           "ecl --host http://somehost --user admin platform info" eq_refl).
Defined.

(** ** More on the search for the binary *)


Lemma walk_Directory {S : Type}
    (walkFn : list string → filepath.FileInfo → S → S * option filepath.walkError)
    (path : list string) (name : string) (entries : list (string * filepath.node))
    (st : S) :
  filepath.walk walkFn path name (filepath.Directory entries) st =
  let '(st, err1) :=
    walkFn path {| filepath.Name := name; filepath.IsDir := true |} st in
  match err1 with
  | Some _ => (st, err1)
  | None => walkEntries walkFn path entries st
  end.
Proof. reflexivity. Qed.

Lemma walkEntries_cons {S : Type}
    (walkFn : list string → filepath.FileInfo → S → S * option filepath.walkError)
    (path : list string) (name : string) (child : filepath.node)
    (names : list (string * filepath.node)) (st : S) :
  walkEntries walkFn path ((name, child) :: names) st =
  let '(st, err) := filepath.walk walkFn (path ++ [name]) name child st in
  match err with
  | None => walkEntries walkFn path names st
  | Some e =>
      if filepath.isDir child && filepath.isSkipDir e
      then walkEntries walkFn path names st
      else (st, Some e)
  end.
Proof. reflexivity. Qed.

Lemma Base_snoc (path : list string) (name : string) :
  filepath.Base (path ++ [name]) = name.
Proof. unfold filepath.Base. apply last_last. Qed.

Lemma last_Some_last (q : list string) (b d : string) :
  last q = Some b → List.last q d = b.
Proof.
  induction q as [|c q IH]; [done|]. intros Hl. destruct q as [|c' q].
  - cbn in Hl. by injection Hl.
  - change (List.last (c :: c' :: q) d) with (List.last (c' :: q) d). by apply IH.
Qed.

Lemma Base_app (path q : list string) :
  q ≠ [] → filepath.Base (path ++ q) = List.last q "/".
Proof.
  intros Hq. unfold filepath.Base. induction path as [|c path IH]; [done|].
  cbn [app]. destruct (path ++ q) eqn:Hpq.
  - by apply app_eq_nil in Hpq as [_ ->].
  - rewrite <- IH. by rewrite !last_cons.
Qed.

Lemma findBinaryWalkFn_Directory (p : list string) (binary : string)
    (path : list string) (name st : string) :
  findBinaryWalkFn p binary path
    {| filepath.Name := name; filepath.IsDir := true |} st = (st, None).
Proof.
  unfold findBinaryWalkFn. cbn [filepath.Name filepath.IsDir negb].
  by rewrite andb_false_r.
Qed.

Lemma findBinaryWalkFn_RegularFile (p : list string) (binary : string)
    (path : list string) (name st : string) :
  findBinaryWalkFn p binary path
    {| filepath.Name := name; filepath.IsDir := false |} st
  = if String.eqb name binary
    then (filepath.Rel p path, Some filepath.SkipDir) else (st, None).
Proof.
  unfold findBinaryWalkFn. cbn [filepath.Name filepath.IsDir negb].
  by rewrite andb_true_r.
Qed.

Section Found.

Variable p : list string.
Variable binary : string.

Lemma walkPost_lift (path : list string) (name : string) (child : filepath.node)
    (entries : list (string * filepath.node)) (st st1 : string) :
  (name, child) ∈ entries →
  (st1 = st ∨ ∃ q, fileAt child q ∧ filepath.Base ((path ++ [name]) ++ q) = binary
                   ∧ st1 = filepath.Rel p ((path ++ [name]) ++ q)) →
  st1 = st ∨ ∃ q, fileAt (filepath.Directory entries) q
                  ∧ filepath.Base (path ++ q) = binary
                  ∧ st1 = filepath.Rel p (path ++ q).
Proof.
  intros Hin [->|(q & Hq & Hb & ->)]; [by left|]. right.
  exists (name :: q). rewrite <- app_assoc in Hb |- *.
  split; [|done]. cbn [fileAt]. by exists child.
Qed.

Lemma walk_sound (n : filepath.node) :
  ∀ (path : list string) (name st : string),
    filepath.Base path = name →
    walkPost p binary path n st (filepath.walk (findBinaryWalkFn p binary) path name n st).
Proof.
  induction n as [|entries IH] using node_forall_ind; intros path name st Hname.
  - cbn [filepath.walk]. rewrite findBinaryWalkFn_RegularFile.
    destruct (String.eqb_spec name binary) as [->|Hne].
    + split; [by right|]. right. exists []. by rewrite app_nil_r.
    + split; by left.
  - rewrite walk_Directory, findBinaryWalkFn_Directory.
    assert (Hloop : ∀ names st0,
      (∀ e, e ∈ names → e ∈ entries) →
      walkPost p binary path (filepath.Directory entries) st0
        (walkEntries (findBinaryWalkFn p binary) path names st0)).
    { induction names as [|[name' child] names IHnames]; intros st0 Hsub.
      - split; by left.
      - assert (Hin : (name', child) ∈ entries) by apply Hsub, list_elem_of_here.
        pose proof (proj1 (Forall_forall _ _) IH _ Hin) as IHchild.
        cbn [snd] in IHchild.
        specialize (IHchild (path ++ [name']) name' st0 (Base_snoc path name')).
        rewrite walkEntries_cons.
        destruct (filepath.walk _ _ _ child st0) as [st1 err].
        destruct IHchild as [Herr Hst]. cbn [fst snd] in Herr, Hst.
        pose proof (walkPost_lift path name' child entries st0 st1 Hin Hst) as Hlift.
        assert (Hrest : walkPost p binary path (filepath.Directory entries) st0
                  (walkEntries (findBinaryWalkFn p binary) path names st1)).
        { destruct (IHnames st1 (fun e He => Hsub e (list_elem_of_further _ _ _ He)))
            as [Herr' Hst'].
          split; [done|]. destruct Hst' as [Heq|Hm]; [|by right].
          rewrite Heq. exact Hlift. }
        destruct err as [e|]; [|exact Hrest].
        destruct (filepath.isDir child && filepath.isSkipDir e); [exact Hrest|].
        split; [|exact Hlift]. cbn [snd]. destruct Herr as [?|Herr]; [done|by right]. }
    by apply Hloop.
Qed.


Lemma Walk_findBinary (n : filepath.node) :
  ∃ st, filepath.Walk p n (findBinaryWalkFn p binary) "" = (st, None)
        ∧ (st = ""
           ∨ ∃ q, fileAt n q ∧ filepath.Base (p ++ q) = binary
                  ∧ st = filepath.Rel p (p ++ q)).
Proof.
  unfold filepath.Walk.
  pose proof (walk_sound n p (filepath.Base p) "" eq_refl) as [Herr Hst].
  destruct (filepath.walk _ _ _ n "") as [st err]. cbn [fst snd] in Herr, Hst.
  exists st. split; [|exact Hst].
  by destruct Herr as [->| ->].
Qed.

Lemma Rel_below (q : list string) :
  q ≠ [] → filepath.Rel p (p ++ q) = strings.Join q "/".
Proof.
  intros Hq. unfold filepath.Rel. rewrite drop_app_length. by destruct q.
Qed.

End Found.

Lemma Join_not_dot (q : list string) (name : string) :
  last q = Some name → name ≠ "." → strings.Join q "/" ≠ ".".
Proof.
  intros Hlast Hname. destruct q as [|c [|c' q]]; [done| |].
  - cbn in Hlast |- *. congruence.
  - cbn [strings.Join]. destruct c as [|a [|b c]]; try done.
Qed.

Lemma parents_not_dot (k : nat) (rel : string) :
  rel ≠ "" → rel ≠ "." → parents k rel ≠ "" ∧ parents k rel ≠ ".".
Proof. intros H0 H1. destruct k; [done|]. split; done. Qed.

Lemma JoinParent_parents (k : nat) (rel : string) :
  rel ≠ "" → rel ≠ "." →
  filepath.JoinParent (parents k rel) = parents (S k) rel.
Proof.
  intros H0 H1. destruct (parents_not_dot k rel H0 H1) as [He Hd].
  unfold filepath.JoinParent.
  apply String.eqb_neq in He, Hd. by rewrite He, Hd.
Qed.

Lemma lookup_step (entries : list (string * filepath.node)) (c : string)
    (q : list string) :
  filepath.lookup (filepath.Directory entries) (c :: q)
  = match list_find (fun e => e.1 = c) entries with
    | Some (_, e) => filepath.lookup e.2 q
    | None => None
    end.
Proof. reflexivity. Qed.

Lemma lookup_parent_Directory (p : list string) :
  ∀ n entries,
    filepath.lookup n p = Some (filepath.Directory entries) →
    ∃ entries', filepath.lookup n (filepath.Dir p) = Some (filepath.Directory entries').
Proof.
  unfold filepath.Dir. induction p as [|c p IH]; intros n entries Hn.
  - by exists entries.
  - destruct n as [|es]; [done|]. destruct p as [|c' p]; [by exists es|].
    change (removelast (c :: c' :: p)) with (c :: removelast (c' :: p)).
    rewrite lookup_step in Hn |- *.
    destruct (list_find _ es) as [[i e]|]; [|done]. by eapply IH.
Qed.

Section Sound.

Variable fs : filepath.node.
Variable binary : string.
Hypothesis binary_not_dot : binary ≠ ".".

Lemma FindBinaryPath_sound_aux (fuel : nat) :
  ∀ (p : list string) (entries : list (string * filepath.node))
    (s : string) (err : option error),
    filepath.lookup fs p = Some (filepath.Directory entries) →
    FindBinaryPath fuel fs p binary = Returned (s, err) →
    err = None ∧ s ≠ "" ∧ s ≠ "."
    ∧ ∃ k q n,
        s = parents k (strings.Join q "/")
        ∧ filepath.lookup fs (ancestor k p) = Some n
        ∧ fileAt n q ∧ last q = Some binary.
Proof.
  induction fuel as [|fuel IH]; intros p entries s err Hp Hret; [done|].
  cbn [FindBinaryPath] in Hret. rewrite Hp in Hret.
  destruct (Walk_findBinary p binary (filepath.Directory entries))
    as (st & Hwalk & Hst).
  rewrite Hwalk in Hret.
  destruct (String.eqb st "") eqn:Hempty.
  - destruct (lookup_parent_Directory p fs entries Hp) as [entries' Hparent].
    destruct (FindBinaryPath fuel fs (filepath.Dir p) binary)
      as [[s' err']| | | |] eqn:Hrec; try discriminate Hret.
    cbn [obind fst snd] in Hret. injection Hret as <- <-.
    destruct (IH _ _ _ _ Hparent Hrec)
      as (-> & Hs0 & Hs1 & k & q & n & Hs' & Hn & Hq & Hlast).
    unfold filepath.JoinParent.
    apply String.eqb_neq in Hs0 as Hs0', Hs1 as Hs1'. rewrite Hs0', Hs1'.
    split; [done|]. split; [done|]. split; [done|].
    exists (S k), q, n. split; [by rewrite Hs'|]. split; [|done].
    unfold ancestor in Hn |- *. by rewrite Nat.iter_succ_r.
  - injection Hret as <- <-. apply String.eqb_neq in Hempty.
    destruct Hst as [->|(q & Hq & Hb & ->)]; [done|].
    assert (Hne : q ≠ []) by (by intros ->).
    rewrite Rel_below in Hempty |- * by done.
    assert (Hlast : last q = Some binary).
    { rewrite Base_app in Hb by done. destruct (last q) as [b|] eqn:Hl.
      - f_equal. rewrite <- Hb. symmetry. by apply last_Some_last. 
      - by apply last_None in Hl. }
    split; [done|]. split; [done|].
    split; [by apply (Join_not_dot q binary)|].
    by exists 0, q, (filepath.Directory entries).
Qed.

End Sound.

(** X16: whatever [FindBinaryPath] returns from a directory is right: the
    error is nil and the path is some number of [../] followed by the
    components that lead, from the ancestor that many levels up, to a file
    that is not a directory and is called [binary]. *)
Theorem FindBinaryPath_returns_a_file (fuel : nat) (fs : filepath.node)
    (p : list string) (binary s : string) (err : option error)
    (entries : list (string * filepath.node)) :
  binary ≠ "." →
  filepath.lookup fs p = Some (filepath.Directory entries) →
  FindBinaryPath fuel fs p binary = Returned (s, err) →
  err = None
  ∧ ∃ k q n,
      s = parents k (strings.Join q "/")
      ∧ filepath.lookup fs (ancestor k p) = Some n
      ∧ fileAt n q ∧ last q = Some binary.
Proof.
  intros Hdot Hp Hret.
  destruct (FindBinaryPath_sound_aux fs binary Hdot fuel p entries s err Hp Hret)
    as (Herr & _ & _ & Hfound).
  by split.
Qed.




Section Finds.

Variable p : list string.
Variable binary : string.
Hypothesis binary_nonempty : binary ≠ "".





End Finds.

Lemma FindBinaryPath_S (fuel : nat) (fs : filepath.node) (p : list string)
    (binary : string) :
  FindBinaryPath (S fuel) fs p binary =
  match filepath.lookup fs p with
  | None => Panicked
  | Some n =>
      let '(binaryPath, err) := filepath.Walk p n (findBinaryWalkFn p binary) "" in
      match err with
      | Some e => Returned ("", Some e)
      | None =>
          if String.eqb binaryPath "" then
            call! r := FindBinaryPath fuel fs (filepath.Dir p) binary in
            Returned (filepath.JoinParent r.1, r.2)
          else Returned (binaryPath, None)
      end
  end.
Proof. reflexivity. Qed.


Lemma walkEntries_directories (p : list string) (binary : string)
    (path : list string) (before rest : list (string * filepath.node)) (st : string) :
  (∀ e, e ∈ before → filepath.isDir e.2 = true) →
  walkEntries (findBinaryWalkFn p binary) path (before ++ rest) st
  = walkEntries (findBinaryWalkFn p binary) path rest
      (walkEntries (findBinaryWalkFn p binary) path before st).1.
Proof.
  revert st. induction before as [|[name child] before IH]; intros st Hdirs; [done|].
  cbn [app]. rewrite !walkEntries_cons.
  pose proof (walk_sound p binary child (path ++ [name]) name st (Base_snoc path name))
    as [Herr _].
  assert (Hchild : filepath.isDir child = true)
    by apply (Hdirs (name, child)), list_elem_of_here.
  assert (Hrest : ∀ e, e ∈ before → filepath.isDir e.2 = true)
    by (intros e He; apply Hdirs; by apply list_elem_of_further).
  destruct (filepath.walk _ _ _ child st) as [st1 err]. cbn [snd] in Herr.
  destruct Herr as [->| ->]; [by apply IH|].
  rewrite Hchild. cbn [andb filepath.isSkipDir]. by apply IH.
Qed.

(** X18: the walk does not stop at the first match: a match only skips the
    rest of the directory it is in, so when the last entry of the starting
    directory is a directory that starts with the binary, the result is the
    binary of that directory, whatever the directories listed before it
    hold. *)
Theorem FindBinaryPath_last_directory_wins (fuel : nat) (fs : filepath.node)
    (p : list string) (binary dir : string)
    (before rest : list (string * filepath.node)) :
  filepath.lookup fs p
  = Some (filepath.Directory
            (before ++ [(dir, filepath.Directory ((binary, filepath.RegularFile) :: rest))])) →
  (∀ e, e ∈ before → filepath.isDir e.2 = true) →
  FindBinaryPath (S fuel) fs p binary = Returned (dir +:+ "/" +:+ binary, None).
Proof.
  intros Hp Hdirs. rewrite FindBinaryPath_S, Hp. unfold filepath.Walk.
  rewrite walk_Directory, findBinaryWalkFn_Directory.
  rewrite (walkEntries_directories p binary p before _ "" Hdirs).
  rewrite walkEntries_cons, walk_Directory, findBinaryWalkFn_Directory.
  rewrite walkEntries_cons. cbn [filepath.walk].
  rewrite findBinaryWalkFn_RegularFile, String.eqb_refl.
  cbn [filepath.isDir filepath.isSkipDir andb walkEntries].
  rewrite <- app_assoc. cbn [app]. rewrite (Rel_below p [dir; binary]) by done.
  cbn [strings.Join].
  destruct (String.eqb_spec (dir +:+ "/" +:+ binary) "") as [Hempty|_]; [|done].
  by destruct dir.
Qed.

Lemma FindBinaryPath_returns_a_file_witness :
  "aweirdbinaryname" ≠ "."
  ∧ filepath.lookup findEclExample ["pkg"; "engine"]
    = Some (filepath.Directory [("execution.go", filepath.RegularFile)])
  ∧ FindBinaryPath 2 findEclExample ["pkg"; "engine"] "aweirdbinaryname"
    = Returned ("../apath/aweirdbinaryname", None)
  ∧ ∃ k q n,
      "../apath/aweirdbinaryname" = parents k (strings.Join q "/")
      ∧ filepath.lookup findEclExample (ancestor k ["pkg"; "engine"]) = Some n
      ∧ fileAt n q ∧ last q = Some "aweirdbinaryname".
Proof.
  assert (Hdot : "aweirdbinaryname" ≠ ".") by discriminate.
  split; [exact Hdot|]. split; [reflexivity|]. split; [reflexivity|].
  exact (proj2 (FindBinaryPath_returns_a_file 2 findEclExample ["pkg"; "engine"]
                  "aweirdbinaryname" "../apath/aweirdbinaryname" None
                  [("execution.go", filepath.RegularFile)]
                  Hdot eq_refl eq_refl)).
Defined.


Lemma FindBinaryPath_last_directory_wins_witness :
  filepath.lookup twoBinariesExample []
  = Some (filepath.Directory
            ([("bin", filepath.Directory [("ecl", filepath.RegularFile)])]
               ++ [("dist", filepath.Directory
                              (("ecl", filepath.RegularFile)
                                 :: [("README", filepath.RegularFile)]))]))
  ∧ (∀ e, e ∈ [("bin", filepath.Directory [("ecl", filepath.RegularFile)])] →
          filepath.isDir e.2 = true)
  ∧ FindBinaryPath 1 twoBinariesExample [] "ecl"
    = Returned ("dist" +:+ "/" +:+ "ecl", None).
Proof.
  assert (Hdirs : ∀ e, e ∈ [("bin", filepath.Directory [("ecl", filepath.RegularFile)])] →
                       filepath.isDir e.2 = true).
  { intros e He. apply list_elem_of_singleton in He as ->. reflexivity. }
  split; [reflexivity|]. split; [exact Hdirs|].
  exact (FindBinaryPath_last_directory_wins 0 twoBinariesExample [] "ecl" "dist"
           [("bin", filepath.Directory [("ecl", filepath.RegularFile)])]
           [("README", filepath.RegularFile)] eq_refl Hdirs).
Defined.

(** ** The callbacks and the case *)


Lemma TestCallback_Run_fold (tc : TestCallback) (out : string)
    (storage : teststorage.SafeMap) :
  TestCallback_Run tc out storage
  = ((foldl (callbackStep out) (storage, []) tc).1,
     NewPrefixedError "callback" (errorsJoin (foldl (callbackStep out) (storage, []) tc).2)).
Proof.
  unfold TestCallback_Run.
  change (foldl _ (storage, []) tc) with (foldl (callbackStep out) (storage, []) tc).
  by destruct (foldl (callbackStep out) (storage, []) tc).
Qed.

Lemma callbackStep_fold_errs (tc : TestCallback) (out : string)
    (storage : teststorage.SafeMap) (errs : list error) :
  foldl (callbackStep out) (storage, errs) tc
  = ((foldl (callbackStep out) (storage, []) tc).1,
     errs ++ (foldl (callbackStep out) (storage, []) tc).2).
Proof.
  revert storage errs. induction tc as [|[key callback] tc IH]; intros storage errs.
  - cbn. by rewrite app_nil_r.
  - cbn [foldl callbackStep].
    destruct (callback out key storage) as [storage' [e|]].
    + rewrite (IH storage' (errs ++ [e])), (IH storage' ([] ++ [e])). cbn [fst snd].
      by rewrite <- app_assoc.
    + by rewrite (IH storage' errs).
Qed.

Lemma prefixed_None (prefix : string) (errs : list error) :
  NewPrefixedError prefix (errorsJoin errs) = None ↔ errs = [].
Proof. destruct errs; cbn; split; done. Qed.

(** X19: [Run] calls every callback, each on the store the one before
    left, also after a callback has failed; the result is nil exactly when
    no callback returned an error, and without callbacks the store is
    untouched. *)
Theorem TestCallback_Run_all_callbacks (tc1 tc2 : TestCallback) (out : string)
    (storage : teststorage.SafeMap) (key : string) (callback : Callback) :
  (TestCallback_Run (tc1 ++ tc2) out storage).1
  = (TestCallback_Run tc2 out (TestCallback_Run tc1 out storage).1).1
  ∧ ((TestCallback_Run (tc1 ++ tc2) out storage).2 = None ↔
       (TestCallback_Run tc1 out storage).2 = None
       ∧ (TestCallback_Run tc2 out (TestCallback_Run tc1 out storage).1).2 = None)
  ∧ (TestCallback_Run [(key, callback)] out storage).1 = (callback out key storage).1
  ∧ ((TestCallback_Run [(key, callback)] out storage).2 = None ↔
       (callback out key storage).2 = None)
  ∧ TestCallback_Run [] out storage = (storage, None).
Proof.
  rewrite !TestCallback_Run_fold. cbn [fst snd].
  rewrite foldl_app.
  destruct (foldl (callbackStep out) (storage, []) tc1) as [storage1 errs1] eqn:H1.
  rewrite (callbackStep_fold_errs tc2 out storage1 errs1). cbn [fst snd].
  split; [done|]. split.
  - rewrite !prefixed_None. split.
    + by intros [? ?]%app_eq_nil.
    + by intros [-> ->].
  - cbn [foldl callbackStep]. destruct (callback out key storage) as [storage' [e|]];
      cbn; repeat split; done.
Qed.

Lemma parseDynamicArguments_loop_error (dynamicArgs : list string)
    (storage : teststorage.SafeMap) (result : list string) (key : string) :
  key ∈ dynamicArgs → prefixedKey key = false →
  teststorage.Get key storage = None →
  ∃ key', key' ∈ dynamicArgs
          ∧ parseDynamicArguments_loop dynamicArgs storage result
            = ([], Some (missingKeyMsg key')).
Proof.
  revert result. induction dynamicArgs as [|k rest IH]; intros result Hin Hp Hg.
  - by apply elem_of_nil in Hin.
  - rewrite parseDynamicArguments_loop_step.
    destruct (resolveToken storage k) as [r|] eqn:Hk.
    + apply elem_of_cons in Hin as [->|Hin].
      * rewrite resolveToken_lookup in Hk by done.
        unfold teststorage.Get in Hg. congruence.
      * destruct (IH (result ++ [r]) Hin Hp Hg) as (key' & Hin' & ->).
        exists key'. split; [by apply list_elem_of_further | done].
    + exists k. split; [apply list_elem_of_here | done].
Qed.

Section Cases.

Context `{RegexpPkg} `{MultierrorPkg}.
Variable Command : string → list string → exec.Cmd.
Variable fs : filepath.node.
Variable cwd : list string.

(** X20: a dynamic argument without marker and without value in the store
    aborts the case at once: the test is marked failed with the name of a
    key of the list that has no marker and no value in the store, the
    goroutine of the case ends, and the store is as it was. *)
Theorem executeTestCase_missing_key_aborts (fuel : nat) (t : testing.T)
    (testN : nat) (tt : Test) (storage : teststorage.SafeMap) (key : string) :
  key ∈ DynamicArgs (Test_Args tt) → prefixedKey key = false →
  teststorage.Get key storage = None →
  ∃ key', key' ∈ DynamicArgs (Test_Args tt)
    ∧ prefixedKey key' = false
    ∧ teststorage.Get key' storage = None
    ∧ executeTestCase Command fs cwd fuel t testN tt storage
      = ({| testing.failed := true;
            testing.output :=
              testing.output t
              ++ [testTag testN +:+ ": failed to obtain value of key " +:+ key'] |},
         storage, Exited).
Proof.
  intros Hin Hp Hg.
  destruct (parseDynamicArguments_loop_shape (DynamicArgs (Test_Args tt)) storage [])
    as [(resolved & Hok & _)|(key' & Hin' & Hp' & Hg' & Hparse)].
  - exfalso.
    destruct (parseDynamicArguments_loop_error _ storage [] key Hin Hp Hg)
      as (k & _ & Herr).
    rewrite Herr in Hok. discriminate Hok.
  - exists key'. split; [done|]. split; [done|]. split; [done|].
    unfold executeTestCase, parseDynamicArguments. by rewrite Hparse.
Qed.




(** X24: a case without standard input whose assertions return runs to its
    end: the store is the one the callbacks leave, also when the assertions
    failed; the test is untouched when neither the assertions nor the
    callbacks gave an error, and marked failed with one more log entry
    otherwise. *)
Theorem executeTestCase_verdict (fuel : nat) (t : testing.T) (testN : nat)
    (tt : Test) (storage storage' : teststorage.SafeMap)
    (dynamicArgs args : list string) (stdout stderr : string)
    (err aerr cerr : option error) :
  parseDynamicArguments (DynamicArgs (Test_Args tt)) storage = (dynamicArgs, None) →
  args = (Config (Test_Args tt) ++ Args_Args (Test_Args tt)) ++ dynamicArgs →
  Binary tt ≠ "" → FindBinary tt = false → Interactive (Test_Args tt) = [] →
  exec.Run (Command (Binary tt) args) = (stdout, stderr, err) →
  Ensure (Assert tt) stdout stderr err storage
    (redactPasswordFlag (strings.Join (Binary tt :: args) " ")) = Returned aerr →
  TestCallback_Run (Callbacks tt) stdout storage = (storage', cerr) →
  ∃ t', executeTestCase Command fs cwd fuel t testN tt storage
        = (t', storage', Returned ())
        ∧ (aerr = None ∧ cerr = None → t' = t)
        ∧ (aerr ≠ None ∨ cerr ≠ None →
           testing.failed t' = true
           ∧ length (testing.output t') = S (length (testing.output t))).
Proof.
  intros Hparse -> Hbinary Hfind Hinter Hrun Hensure Hcallbacks.
  unfold executeTestCase. rewrite Hparse.
  apply String.eqb_neq in Hbinary. rewrite Hbinary, Hfind. cbv zeta.
  unfold runCommand. rewrite Hinter. cbn [length Nat.eqb]. rewrite Hrun.
  unfold judge. rewrite Hensure, Hcallbacks. cbv zeta.
  assert (Hlen : ∀ msg, length (testing.output (testing.Errorf msg t))
                       = S (length (testing.output t))).
  { intros msg. cbn [testing.Errorf testing.output].
    rewrite length_app. cbn [length]. lia. }
  destruct aerr as [a|], cerr as [c|]; cbn [appendErr app length Nat.ltb Nat.leb];
    eexists; (split; [reflexivity|]); (split; [intros [? ?]; try done|]);
    try (intros _; split; [reflexivity | apply Hlen]).
  by intros [?|?].
Qed.

End Cases.

Lemma executeTestCase_missing_key_aborts_witness :
  "id" ∈ DynamicArgs (Test_Args dynamicExample)
  ∧ prefixedKey "id" = false
  ∧ teststorage.Get "id" teststorage.NewSafeMap = None
  ∧ ∃ key', key' ∈ DynamicArgs (Test_Args dynamicExample)
      ∧ prefixedKey key' = false
      ∧ teststorage.Get key' teststorage.NewSafeMap = None
      ∧ @executeTestCase literalRegexp plainMultierror readyCommand noBinaryExample
          [] 0 testing.new 1 dynamicExample teststorage.NewSafeMap
        = ({| testing.failed := true;
              testing.output :=
                testing.output testing.new
                ++ [testTag 1 +:+ ": failed to obtain value of key " +:+ key'] |},
           teststorage.NewSafeMap, Exited).
Proof.
  assert (Hin : "id" ∈ DynamicArgs (Test_Args dynamicExample))
    by apply list_elem_of_here.
  split; [exact Hin|]. split; [reflexivity|]. split; [reflexivity|].
  exact (@executeTestCase_missing_key_aborts literalRegexp plainMultierror
           readyCommand noBinaryExample [] 0 testing.new 1 dynamicExample
           teststorage.NewSafeMap "id" Hin eq_refl eq_refl).
Defined.



Lemma executeTestCase_verdict_witness :
  parseDynamicArguments (DynamicArgs (Test_Args readyExample))
    teststorage.NewSafeMap = ([], None)
  ∧ Binary readyExample ≠ ""
  ∧ FindBinary readyExample = false
  ∧ Interactive (Test_Args readyExample) = []
  ∧ exec.Run (readyCommand "ecl" ["--verbose"; "status"]) = ("ready", "", None)
  ∧ @Ensure literalRegexp (Assert readyExample) "ready" "" None
      teststorage.NewSafeMap
      (redactPasswordFlag (strings.Join ["ecl"; "--verbose"; "status"] " "))
    = Returned None
  ∧ TestCallback_Run (Callbacks readyExample) "ready" teststorage.NewSafeMap
    = (teststorage.Set_ "status" "ready" teststorage.NewSafeMap, None)
  ∧ ∃ t', @executeTestCase literalRegexp plainMultierror readyCommand noBinaryExample [] 0
            testing.new 5 readyExample teststorage.NewSafeMap
          = (t', teststorage.Set_ "status" "ready" teststorage.NewSafeMap,
             Returned ())
          ∧ ((@None error) = None ∧ (@None error) = None → t' = testing.new)
          ∧ ((@None error) ≠ None ∨ (@None error) ≠ None →
             testing.failed t' = true
             ∧ length (testing.output t') = S (length (testing.output testing.new))).
Proof.
  assert (Hbinary : Binary readyExample ≠ "") by discriminate.
  split; [reflexivity|]. split; [exact Hbinary|]. split; [reflexivity|].
  split; [reflexivity|]. split; [reflexivity|]. split; [reflexivity|].
  split; [reflexivity|].
  exact (@executeTestCase_verdict literalRegexp plainMultierror readyCommand noBinaryExample [] 0
           testing.new 5 readyExample teststorage.NewSafeMap
           (teststorage.Set_ "status" "ready" teststorage.NewSafeMap)
           [] ["--verbose"; "status"] "ready" "" None None None
           eq_refl eq_refl Hbinary eq_refl eq_refl eq_refl eq_refl eq_refl).
Defined.
